(** * Incident SLA tracker: the SLA lifecycle engine

    A shallow embedding of the parts of the application that decide how an
    SLA evolves: the policy lookup of [app/config.py], the entities of
    [app/models], the service operations of
    [app/services/incident_service.py] and the periodic breach scan of
    [app/tasks/sla_checker.py].  Around them it covers the list validators
    of the settings, the rendering of durations of
    [app/utils/datetime_utils.py], the warning pass of the scanner and the
    paging of the list endpoint of [app/api/v1/incidents.py].

    Conventions.
    - A [datetime] is an integer number of microseconds since the epoch (all
      datetimes of the application are timezone-aware UTC values); a
      [timedelta] is an integer number of microseconds.  The range limits of
      Python's [datetime] (years 1 to 9999) are not modelled.
    - A table is the list of its rows; an ORM update rewrites the rows that
      carry the primary key of the updated object.
    - An operation of the service that raises returns [inl] and stores
      nothing: its transaction is not committed.
    - A Python [str] is a [string]; only comparisons with ASCII literals are
      made on them. *)

From Stdlib Require Import ZArith List String Ascii Bool Lia.
From Stdlib Require Import Permutation Sorted DecimalString DecimalPos.
Import ListNotations.
Open Scope Z_scope.

Definition UUID := N.
Definition datetime := Z.
Definition timedelta := Z.

(** Truthiness of an optional datetime: [None] is false, every datetime
    object is true. *)
Definition is_set {A : Type} (o : option A) : bool :=
  match o with Some _ => true | None => false end.

Definition is_none {A : Type} (o : option A) : bool := negb (is_set o).

(** ** app/utils/datetime_utils.py *)

Definition microseconds_per_hour : Z := 3600 * 1000000.

(** [timedelta(hours=h)] *)
Definition timedelta_hours (h : Z) : timedelta := h * microseconds_per_hour.

Definition add_hours (dt : datetime) (hours : Z) : datetime :=
  dt + timedelta_hours hours.

(** [str(n)] of an integer, as an f-string renders it. *)
Definition str_int (n : Z) : string := NilEmpty.string_of_int (Z.to_int n).

(** [format_timedelta].  [int(td.total_seconds())] drops the fraction of
    a second towards zero; the float is exact for durations below [2^53]
    microseconds (about 285 years). *)
Definition format_timedelta (td : timedelta) : string :=
  let total_seconds := Z.quot td 1000000 in
  if total_seconds <? 0 then "Breached"
  else
    let days := total_seconds / 86400 in
    let hours := (total_seconds mod 86400) / 3600 in
    let minutes := (total_seconds mod 3600) / 60 in
    if 0 <? days then (str_int days ++ "d " ++ str_int hours ++ "h")%string
    else if 0 <? hours
         then (str_int hours ++ "h " ++ str_int minutes ++ "m")%string
         else (str_int minutes ++ "m")%string.

(** ** Strings: [str.lower] *)

Definition lower_char (c : ascii) : ascii :=
  let n := nat_of_ascii c in
  if (Nat.leb 65 n && Nat.leb n 90)%bool then ascii_of_nat (n + 32) else c.

(** [s.lower()].  Bytes outside ASCII are left as they are: no character
    outside ASCII is lowered by Python to a letter of the four priority
    names. *)
Fixpoint lower (s : string) : string :=
  match s with
  | EmptyString => EmptyString
  | String c r => String (lower_char c) (lower r)
  end.

(** ** Strings: [str.split(",")] and [str.strip()] *)

(** The characters [str.strip()] removes, among the ASCII ones. *)
Definition is_space (c : ascii) : bool :=
  let n := nat_of_ascii c in
  ((Nat.leb 9 n && Nat.leb n 13) || (Nat.leb 28 n && Nat.leb n 32))%bool.

Fixpoint lstrip (s : string) : string :=
  match s with
  | EmptyString => EmptyString
  | String c r => if is_space c then lstrip r else s
  end.

Fixpoint rstrip (s : string) : string :=
  match s with
  | EmptyString => EmptyString
  | String c r =>
      match rstrip r with
      | EmptyString => if is_space c then EmptyString else String c EmptyString
      | r' => String c r'
      end
  end.

(** [s.strip()] *)
Definition strip (s : string) : string := lstrip (rstrip s).

(** [s.split(",")]: the pieces between the commas, of which there is
    always at least one. *)
Fixpoint split_comma (s : string) : list string :=
  match s with
  | EmptyString => [EmptyString]
  | String c r =>
      if Ascii.eqb c "," then EmptyString :: split_comma r
      else match split_comma r with
           | piece :: pieces => String c piece :: pieces
           | [] => [String c EmptyString]
           end
  end.

(** [",".join(pieces)] *)
Fixpoint join_comma (pieces : list string) : string :=
  match pieces with
  | [] => EmptyString
  | [piece] => piece
  | piece :: rest => (piece ++ String "," (join_comma rest))%string
  end.

(** A string of ASCII characters only. *)
Fixpoint is_ascii (s : string) : bool :=
  match s with
  | EmptyString => true
  | String c r => (Nat.ltb (nat_of_ascii c) 128 && is_ascii r)%bool
  end.

(** An entry as the two list validators produce them: not empty, without
    surrounding spaces, without a comma. *)
Definition clean_item (x : string) : Prop :=
  x <> EmptyString
  /\ strip x = x
  /\ ~ In ","%char (list_ascii_of_string x).

(** ** app/config.py *)

Module Config.

Record Settings := {
  sla_critical_response : Z;
  sla_critical_resolution : Z;
  sla_high_response : Z;
  sla_high_resolution : Z;
  sla_medium_response : Z;
  sla_medium_resolution : Z;
  sla_low_response : Z;
  sla_low_resolution : Z
}.

(** The [Field(default=...)] values of the SLA block of [Settings]. *)
Definition default_settings : Settings := {|
  sla_critical_response := 1;
  sla_critical_resolution := 4;
  sla_high_response := 4;
  sla_high_resolution := 24;
  sla_medium_response := 8;
  sla_medium_resolution := 72;
  sla_low_response := 24;
  sla_low_resolution := 168
|}.

(** The dictionary returned by [get_sla_deadlines]; it always has exactly
    the keys [response_hours] and [resolution_hours]. *)
Record Deadlines := {
  response_hours : Z;
  resolution_hours : Z
}.

Definition get_sla_deadlines (self : Settings) (priority : string)
  : Deadlines :=
  let priority_lower := lower priority in
  if String.eqb priority_lower "critical" then
    {| response_hours := sla_critical_response self;
       resolution_hours := sla_critical_resolution self |}
  else if String.eqb priority_lower "high" then
    {| response_hours := sla_high_response self;
       resolution_hours := sla_high_resolution self |}
  else if String.eqb priority_lower "medium" then
    {| response_hours := sla_medium_response self;
       resolution_hours := sla_medium_resolution self |}
  else if String.eqb priority_lower "low" then
    {| response_hours := sla_low_response self;
       resolution_hours := sla_low_resolution self |}
  else
    {| response_hours := sla_medium_response self;
       resolution_hours := sla_medium_resolution self |}.

(** The validator [parse_cors_origins].  The value is a string, or a
    list that is passed through ([inr]).  On strings with characters
    outside ASCII, [strip] of Python also removes the other Unicode
    spaces; the model is for ASCII values. *)
Definition parse_cors_origins (v : string + list string) : list string :=
  match v with
  | inl s =>
      map strip
        (filter (fun origin => negb (String.eqb (strip origin) ""))
                (split_comma s))
  | inr l => l
  end.

(** The validator [parse_allowed_extensions]. *)
Definition parse_allowed_extensions (v : string + list string)
  : list string :=
  match v with
  | inl s =>
      map (fun ext => lower (strip ext))
        (filter (fun ext => negb (String.eqb (strip ext) ""))
                (split_comma s))
  | inr l => l
  end.

End Config.

(** ** app/models *)

Inductive IncidentStatus := OPEN | IN_PROGRESS | RESOLVED | CLOSED.

Inductive IncidentPriority := CRITICAL | HIGH | MEDIUM | LOW.

(** [IncidentPriority.value] *)
Definition priority_value (p : IncidentPriority) : string :=
  match p with
  | CRITICAL => "critical"
  | HIGH => "high"
  | MEDIUM => "medium"
  | LOW => "low"
  end.

Inductive SLAStatus := ACTIVE | PAUSED | BREACHED | MET.

Definition IncidentStatus_eqb (a b : IncidentStatus) : bool :=
  match a, b with
  | OPEN, OPEN | IN_PROGRESS, IN_PROGRESS
  | RESOLVED, RESOLVED | CLOSED, CLOSED => true
  | _, _ => false
  end.

Definition SLAStatus_eqb (a b : SLAStatus) : bool :=
  match a, b with
  | ACTIVE, ACTIVE | PAUSED, PAUSED | BREACHED, BREACHED | MET, MET => true
  | _, _ => false
  end.

Module User.

(** The columns of [users] read by the modelled code. *)
Record t := {
  id : UUID;
  email : string;
  username : string
}.

End User.

Module Incident.

Record t := {
  id : UUID;
  title : string;
  description : string;
  status : IncidentStatus;
  priority : IncidentPriority;
  reporter_id : UUID;
  assignee_id : option UUID;
  resolved_at : option datetime;
  closed_at : option datetime;
  deleted_at : option datetime
}.

Definition set_status (v : IncidentStatus) (i : t) : t :=
  {| id := id i; title := title i; description := description i;
     status := v; priority := priority i; reporter_id := reporter_id i;
     assignee_id := assignee_id i; resolved_at := resolved_at i;
     closed_at := closed_at i; deleted_at := deleted_at i |}.

Definition set_resolved_at (v : option datetime) (i : t) : t :=
  {| id := id i; title := title i; description := description i;
     status := status i; priority := priority i; reporter_id := reporter_id i;
     assignee_id := assignee_id i; resolved_at := v;
     closed_at := closed_at i; deleted_at := deleted_at i |}.

Definition set_closed_at (v : option datetime) (i : t) : t :=
  {| id := id i; title := title i; description := description i;
     status := status i; priority := priority i; reporter_id := reporter_id i;
     assignee_id := assignee_id i; resolved_at := resolved_at i;
     closed_at := v; deleted_at := deleted_at i |}.

Definition set_assignee_id (v : option UUID) (i : t) : t :=
  {| id := id i; title := title i; description := description i;
     status := status i; priority := priority i; reporter_id := reporter_id i;
     assignee_id := v; resolved_at := resolved_at i;
     closed_at := closed_at i; deleted_at := deleted_at i |}.

Definition set_deleted_at (v : option datetime) (i : t) : t :=
  {| id := id i; title := title i; description := description i;
     status := status i; priority := priority i; reporter_id := reporter_id i;
     assignee_id := assignee_id i; resolved_at := resolved_at i;
     closed_at := closed_at i; deleted_at := v |}.

Definition set_title (v : string) (i : t) : t :=
  {| id := id i; title := v; description := description i;
     status := status i; priority := priority i; reporter_id := reporter_id i;
     assignee_id := assignee_id i; resolved_at := resolved_at i;
     closed_at := closed_at i; deleted_at := deleted_at i |}.

Definition set_description (v : string) (i : t) : t :=
  {| id := id i; title := title i; description := v;
     status := status i; priority := priority i; reporter_id := reporter_id i;
     assignee_id := assignee_id i; resolved_at := resolved_at i;
     closed_at := closed_at i; deleted_at := deleted_at i |}.

Definition set_priority (v : IncidentPriority) (i : t) : t :=
  {| id := id i; title := title i; description := description i;
     status := status i; priority := v; reporter_id := reporter_id i;
     assignee_id := assignee_id i; resolved_at := resolved_at i;
     closed_at := closed_at i; deleted_at := deleted_at i |}.

End Incident.

Module SLA.

Record t := {
  id : UUID;
  incident_id : UUID;
  response_deadline : datetime;
  resolution_deadline : datetime;
  status : SLAStatus;
  response_at : option datetime;
  paused_at : option datetime;
  paused_duration : timedelta;
  breach_notified_at : option datetime
}.

Definition set_status (v : SLAStatus) (s : t) : t :=
  {| id := id s; incident_id := incident_id s;
     response_deadline := response_deadline s;
     resolution_deadline := resolution_deadline s;
     status := v; response_at := response_at s; paused_at := paused_at s;
     paused_duration := paused_duration s;
     breach_notified_at := breach_notified_at s |}.

Definition set_breach_notified_at (v : option datetime) (s : t) : t :=
  {| id := id s; incident_id := incident_id s;
     response_deadline := response_deadline s;
     resolution_deadline := resolution_deadline s;
     status := status s; response_at := response_at s;
     paused_at := paused_at s; paused_duration := paused_duration s;
     breach_notified_at := v |}.

Definition set_paused_at (v : option datetime) (s : t) : t :=
  {| id := id s; incident_id := incident_id s;
     response_deadline := response_deadline s;
     resolution_deadline := resolution_deadline s;
     status := status s; response_at := response_at s;
     paused_at := v; paused_duration := paused_duration s;
     breach_notified_at := breach_notified_at s |}.

Definition set_paused_duration (v : timedelta) (s : t) : t :=
  {| id := id s; incident_id := incident_id s;
     response_deadline := response_deadline s;
     resolution_deadline := resolution_deadline s;
     status := status s; response_at := response_at s;
     paused_at := paused_at s; paused_duration := v;
     breach_notified_at := breach_notified_at s |}.

(** The property [is_response_breached]; [now] is the clock reading
    [datetime.now(...)] taken inside the property. *)
Definition is_response_breached (self : t) (now : datetime) : bool :=
  if is_set (response_at self) then false
  else response_deadline self <? now.

(** The property [is_resolution_breached]. *)
Definition is_resolution_breached (self : t) (now : datetime) : bool :=
  if SLAStatus_eqb (status self) MET then false
  else resolution_deadline self <? now.

(** [get_time_remaining]; [now] is the clock reading taken inside the
    method.  The result is negative once the deadline has passed. *)
Definition get_time_remaining (self : t) (deadline_type : string)
    (now : datetime) : timedelta :=
  if String.eqb deadline_type "response" then response_deadline self - now
  else resolution_deadline self - now.

End SLA.

(** ** The database: the three tables the engine reads and writes *)

Record DB := {
  users : list User.t;
  incidents : list Incident.t;
  slas : list SLA.t
}.

(** [UPDATE incidents SET ... WHERE id = :id], as the unit of work emits
    it for a modified [Incident] object. *)
Definition update_incident_row (i' : Incident.t) (rows : list Incident.t)
  : list Incident.t :=
  map (fun i => if N.eqb (Incident.id i) (Incident.id i') then i' else i) rows.

(** [UPDATE slas SET ... WHERE id = :id]. *)
Definition update_sla_row (s' : SLA.t) (rows : list SLA.t) : list SLA.t :=
  map (fun s => if N.eqb (SLA.id s) (SLA.id s') then s' else s) rows.

(** ** app/services/incident_service.py *)

Module IncidentService.

Inductive Error := MultipleResultsFound.

(** The schema [IncidentCreate]. *)
Record IncidentCreate := {
  title : string;
  description : string;
  priority : IncidentPriority
}.

(** What [flush] and [commit] raise when a row breaks a constraint of the
    schema ([primary_key], [unique=True], [nullable=False], [ForeignKey]);
    [Lookup] carries the error of [get_incident]. *)
Inductive ServiceError :=
| Lookup (e : Error)
| IntegrityError.

(** [ForeignKey("users.id")] on [incidents.reporter_id] and on
    [incidents.assignee_id]. *)
Definition user_exists (db : DB) (uid : UUID) : bool :=
  existsb (fun u => N.eqb (User.id u) uid) (users db).

(** [self.db.add(incident); await self.db.flush()]: the INSERT of the
    incident inside the open transaction.  It raises when the primary key
    is taken or when [reporter_id] is not the id of a user; otherwise the
    result is the pending state of the transaction, which only a commit
    makes durable. *)
Definition flush_incident (db : DB) (incident : Incident.t)
  : ServiceError + DB :=
  if (existsb (fun i => N.eqb (Incident.id i) (Incident.id incident))
        (incidents db)
      || negb (user_exists db (Incident.reporter_id incident)))%bool
  then inl IntegrityError
  else inr {| users := users db;
              incidents := incidents db ++ [incident];
              slas := slas db |}.

(** [self.db.add(sla); await self.db.commit()]: the INSERT of the SLA and
    the commit of the transaction.  It raises when the primary key is taken
    or when an SLA of the same incident is stored already ([unique=True] on
    [slas.incident_id]); the incident the SLA refers to is the pending
    one. *)
Definition commit_sla (pending : DB) (sla : SLA.t) : ServiceError + DB :=
  if (existsb (fun s => N.eqb (SLA.id s) (SLA.id sla)) (slas pending)
      || existsb (fun s => N.eqb (SLA.incident_id s) (SLA.incident_id sla))
           (slas pending))%bool
  then inl IntegrityError
  else inr {| users := users pending;
              incidents := incidents pending;
              slas := slas pending ++ [sla] |}.

Section Service.

(** The global [settings] object of [app/config.py]. *)
Variable settings : Config.Settings.

(** [create_incident].  [incident_uuid] and [sla_uuid] are the primary keys
    drawn for the two new rows.  [now] is the one reading of [utc_now()]
    the function takes, after the flush of the incident and just before
    the SLA object is built: the time at which the SLA is created, from
    which both deadlines are counted.  The incident is flushed and the SLA
    added inside one transaction, closed by the one [commit]: an exception
    at either point leaves the function with nothing stored, the flushed
    incident included. *)
Definition create_incident (db : DB) (incident_data : IncidentCreate)
    (reporter_id : UUID) (incident_uuid sla_uuid : UUID) (now : datetime)
  : ServiceError + (DB * Incident.t) :=
  let incident := {|
    Incident.id := incident_uuid;
    Incident.title := title incident_data;
    Incident.description := description incident_data;
    Incident.status := OPEN;
    Incident.priority := priority incident_data;
    Incident.reporter_id := reporter_id;
    Incident.assignee_id := None;
    Incident.resolved_at := None;
    Incident.closed_at := None;
    Incident.deleted_at := None |} in
  match flush_incident db incident with
  | inl e => inl e
  | inr pending =>
      let sla_deadlines :=
        Config.get_sla_deadlines settings
          (priority_value (Incident.priority incident)) in
      let sla := {|
        SLA.id := sla_uuid;
        SLA.incident_id := Incident.id incident;
        SLA.response_deadline :=
          add_hours now (Config.response_hours sla_deadlines);
        SLA.resolution_deadline :=
          add_hours now (Config.resolution_hours sla_deadlines);
        SLA.status := ACTIVE;
        SLA.response_at := None;
        SLA.paused_at := None;
        SLA.paused_duration := 0;
        SLA.breach_notified_at := None |} in
      match commit_sla pending sla with
      | inl e => inl e
      | inr db' => inr (db', incident)
      end
  end.

End Service.

(** [get_incident]: the rows with the given id and no soft-delete marker,
    through [scalar_one_or_none]. *)
Definition get_incident (db : DB) (incident_id : UUID)
  : Error + option Incident.t :=
  match filter (fun i => N.eqb (Incident.id i) incident_id
                         && is_none (Incident.deleted_at i))%bool
               (incidents db) with
  | [] => inr None
  | [i] => inr (Some i)
  | _ => inl MultipleResultsFound
  end.

(** The relationship [Incident.sla] ([uselist=False]). *)
Definition incident_sla (db : DB) (incident : Incident.t) : option SLA.t :=
  find (fun s => N.eqb (SLA.incident_id s) (Incident.id incident)) (slas db).

(** [update_status]; [now] is the reading of [utc_now()] (at most one of
    the two calls is reached). *)
Definition update_status (db : DB) (incident_id : UUID)
    (status : IncidentStatus) (now : datetime)
  : Error + (DB * option Incident.t) :=
  match get_incident db incident_id with
  | inl e => inl e
  | inr None => inr (db, None)
  | inr (Some incident) =>
      let sla := incident_sla db incident in
      let incident := Incident.set_status status incident in
      let resolving :=
        (IncidentStatus_eqb status RESOLVED
         && is_none (Incident.resolved_at incident))%bool in
      let incident :=
        if resolving then Incident.set_resolved_at (Some now) incident
        else incident in
      let sla' :=
        if resolving then option_map (SLA.set_status MET) sla else None in
      let closing :=
        (IncidentStatus_eqb status CLOSED
         && is_none (Incident.closed_at incident))%bool in
      let incident :=
        if closing then Incident.set_closed_at (Some now) incident
        else incident in
      inr ({| users := users db;
              incidents := update_incident_row incident (incidents db);
              slas := match sla' with
                      | Some s' => update_sla_row s' (slas db)
                      | None => slas db
                      end |},
           Some incident)
  end.

(** [assign_incident].  The commit raises when [assignee_id] is not the id
    of a user. *)
Definition assign_incident (db : DB) (incident_id assignee_id : UUID)
  : ServiceError + (DB * option Incident.t) :=
  match get_incident db incident_id with
  | inl e => inl (Lookup e)
  | inr None => inr (db, None)
  | inr (Some incident) =>
      let incident := Incident.set_assignee_id (Some assignee_id) incident in
      let incident :=
        if IncidentStatus_eqb (Incident.status incident) OPEN
        then Incident.set_status IN_PROGRESS incident
        else incident in
      if user_exists db assignee_id then
        inr ({| users := users db;
                incidents := update_incident_row incident (incidents db);
                slas := slas db |},
             Some incident)
      else inl IntegrityError
  end.

(** [delete_incident]: the soft delete; [now] is the reading of
    [utc_now()]. *)
Definition delete_incident (db : DB) (incident_id : UUID) (now : datetime)
  : Error + (DB * bool) :=
  match get_incident db incident_id with
  | inl e => inl e
  | inr None => inr (db, false)
  | inr (Some incident) =>
      let incident := Incident.set_deleted_at (Some now) incident in
      inr ({| users := users db;
              incidents := update_incident_row incident (incidents db);
              slas := slas db |},
           true)
  end.

Module IncidentUpdate.

(** The schema [IncidentUpdate].  A field is [None] when the request left
    it unset, [Some None] when it was sent as null and [Some (Some v)]
    when it was sent with the value [v]. *)
Record t := {
  title : option (option string);
  description : option (option string);
  status : option (option IncidentStatus);
  priority : option (option IncidentPriority);
  assignee_id : option (option UUID)
}.

End IncidentUpdate.

(** One [setattr(incident, field, value)] on a column that is
    [nullable=False]: a null value is kept by the object and refused by
    the commit. *)
Definition setattr_required {A : Type} (set : A -> Incident.t -> Incident.t)
    (field : option (option A)) (st : Incident.t * bool)
  : Incident.t * bool :=
  match field with
  | None => st
  | Some None => (fst st, true)
  | Some (Some v) => (set v (fst st), snd st)
  end.

(** [update_incident]: the fields of [model_dump(exclude_unset=True)] are
    assigned in the order of the schema; the commit raises when a required
    column was set to null or when the assignee sent is not a user.  The
    strings of the request have passed the length checks of the schema. *)
Definition update_incident (db : DB) (incident_id : UUID)
    (incident_data : IncidentUpdate.t)
  : ServiceError + (DB * option Incident.t) :=
  match get_incident db incident_id with
  | inl e => inl (Lookup e)
  | inr None => inr (db, None)
  | inr (Some incident) =>
      let st := (incident, false) in
      let st := setattr_required Incident.set_title
                  (IncidentUpdate.title incident_data) st in
      let st := setattr_required Incident.set_description
                  (IncidentUpdate.description incident_data) st in
      let st := setattr_required Incident.set_status
                  (IncidentUpdate.status incident_data) st in
      let st := setattr_required Incident.set_priority
                  (IncidentUpdate.priority incident_data) st in
      let incident :=
        match IncidentUpdate.assignee_id incident_data with
        | None => fst st
        | Some v => Incident.set_assignee_id v (fst st)
        end in
      let null_in_required := snd st in
      let assignee_ok :=
        match IncidentUpdate.assignee_id incident_data with
        | Some (Some a) => user_exists db a
        | _ => true
        end in
      if (negb null_in_required && assignee_ok)%bool then
        inr ({| users := users db;
                incidents := update_incident_row incident (incidents db);
                slas := slas db |},
             Some incident)
      else inl IntegrityError
  end.

(** The dictionary returned by [get_incident_stats]. *)
Record Stats := {
  total : nat;
  by_status_open : nat;
  by_status_in_progress : nat;
  by_status_resolved : nat;
  by_priority_critical : nat;
  by_priority_high : nat
}.

Definition IncidentPriority_eqb (a b : IncidentPriority) : bool :=
  match a, b with
  | CRITICAL, CRITICAL | HIGH, HIGH | MEDIUM, MEDIUM | LOW, LOW => true
  | _, _ => false
  end.

(** [base_query] of [get_incident_stats]. *)
Definition stats_base_query (db : DB) (user_id : option UUID)
  : list Incident.t :=
  let base := filter (fun i => is_none (Incident.deleted_at i))
                     (incidents db) in
  match user_id with
  | Some uid =>
      filter (fun i =>
                N.eqb (Incident.reporter_id i) uid
                || match Incident.assignee_id i with
                   | Some a => N.eqb a uid
                   | None => false
                   end)%bool base
  | None => base
  end.

(** [get_incident_stats] *)
Definition get_incident_stats (db : DB) (user_id : option UUID) : Stats :=
  let base_query := stats_base_query db user_id in
  let count_status s :=
    List.length
      (filter (fun i => IncidentStatus_eqb (Incident.status i) s)
              base_query) in
  let count_priority p :=
    List.length
      (filter (fun i => IncidentPriority_eqb (Incident.priority i) p)
              base_query) in
  {| total := List.length base_query;
     by_status_open := count_status OPEN;
     by_status_in_progress := count_status IN_PROGRESS;
     by_status_resolved := count_status RESOLVED;
     by_priority_critical := count_priority CRITICAL;
     by_priority_high := count_priority HIGH |}.

(** A client that sends a list of status changes for one incident, each
    with the clock reading of its call. *)
Fixpoint update_status_many (db : DB) (incident_id : UUID)
    (requests : list (IncidentStatus * datetime)) : Error + DB :=
  match requests with
  | [] => inr db
  | (status, now) :: rest =>
      match update_status db incident_id status now with
      | inl e => inl e
      | inr (db', _) => update_status_many db' incident_id rest
      end
  end.

(** The time of the first request of a list that asks for [target]. *)
Definition first_request (target : IncidentStatus)
    (requests : list (IncidentStatus * datetime)) : option datetime :=
  option_map snd
    (find (fun r => IncidentStatus_eqb (fst r) target) requests).

Section Listing.

(** The column [created_at] of the timestamp mixin, which is not among
    the sources, and the operator [ILIKE] of the database (value, then
    pattern). *)
Variable created_at : Incident.t -> datetime.
Variable ilike : string -> string -> bool.

(** The conditions [list_incidents] adds to its query.  A filter that is
    [None], or a search string that is empty, adds no condition. *)
Definition list_where (status : option IncidentStatus)
    (priority : option IncidentPriority)
    (assignee_id reporter_id : option UUID) (search : option string)
    (i : Incident.t) : bool :=
  (is_none (Incident.deleted_at i)
   && match status with
      | Some s => IncidentStatus_eqb (Incident.status i) s
      | None => true
      end
   && match priority with
      | Some p => IncidentPriority_eqb (Incident.priority i) p
      | None => true
      end
   && match assignee_id with
      | Some a => match Incident.assignee_id i with
                  | Some b => N.eqb b a
                  | None => false
                  end
      | None => true
      end
   && match reporter_id with
      | Some u => N.eqb (Incident.reporter_id i) u
      | None => true
      end
   && match search with
      | Some s =>
          if String.eqb s "" then true
          else
            let search_pattern := ("%" ++ s ++ "%")%string in
            ilike (Incident.title i) search_pattern
            || ilike (Incident.description i) search_pattern
      | None => true
      end)%bool.

(** [ORDER BY created_at DESC], by insertion.  The database does not fix
    the order of rows with the same [created_at]; here the row that is
    later in the table comes first, which is one of the orders the
    database may choose ([may_list] below has them all). *)
Fixpoint insert_desc (i : Incident.t) (l : list Incident.t)
  : list Incident.t :=
  match l with
  | [] => [i]
  | x :: rest =>
      if created_at x <? created_at i then i :: x :: rest
      else x :: insert_desc i rest
  end.

(** The order of a page: the earlier entry is at least as recent. *)
Definition newer_first (x y : Incident.t) : Prop :=
  created_at y <= created_at x.

Definition order_by_created_at_desc (l : list Incident.t)
  : list Incident.t :=
  fold_right insert_desc [] l.

(** [list_incidents]; [skip] and [limit] are not negative. *)
Definition list_incidents (db : DB) (skip limit : nat)
    (status : option IncidentStatus) (priority : option IncidentPriority)
    (assignee_id reporter_id : option UUID) (search : option string)
  : list Incident.t * nat :=
  let stmt :=
    filter (list_where status priority assignee_id reporter_id search)
           (incidents db) in
  let total := List.length stmt in
  let incidents :=
    firstn limit (skipn skip (order_by_created_at_desc stmt)) in
  (incidents, total).

(** The pages the query of [list_incidents] may return.  [ORDER BY
    created_at DESC] asks for the matching rows newest first and nothing
    more: rows with the same [created_at] may come in any order, and in
    another order each time the query is executed. *)
Definition may_list (db : DB) (skip limit : nat)
    (status : option IncidentStatus) (priority : option IncidentPriority)
    (assignee_id reporter_id : option UUID) (search : option string)
    (page : list Incident.t) : Prop :=
  exists ordered,
    Permutation ordered
      (filter (list_where status priority assignee_id reporter_id search)
              (incidents db))
    /\ StronglySorted newer_first ordered
    /\ page = firstn limit (skipn skip ordered).

End Listing.

End IncidentService.

(** ** app/api/v1/incidents.py *)

Module Api.

(** The schema [IncidentListResponse]. *)
Record IncidentListResponse := {
  items : list Incident.t;
  total : nat;
  page : nat;
  page_size : nat;
  pages : nat
}.

Section Listing.

Variable created_at : Incident.t -> datetime.
Variable ilike : string -> string -> bool.

(** The endpoint [list_incidents].  The query parameters have passed the
    checks [skip >= 0] and [1 <= limit <= 1000] of the route. *)
Definition list_incidents (db : DB) (skip limit : nat)
    (status : option IncidentStatus) (priority : option IncidentPriority)
    (assignee_id reporter_id : option UUID) (search : option string)
  : IncidentListResponse :=
  let '(incidents, total) :=
    IncidentService.list_incidents created_at ilike db skip limit
      status priority assignee_id reporter_id search in
  {| items := incidents;
     total := total;
     page := (skip / limit + 1)%nat;
     page_size := limit;
     pages := if Nat.ltb 0 total
              then ((total + limit - 1) / limit)%nat else 0%nat |}.

End Listing.

End Api.

(** ** app/tasks/sla_checker.py *)

Module SLAChecker.

(** The keyword arguments of one [send_sla_breach_notification.delay]
    call.  [incident_id] stands for [str(incident.id)]. *)
Record Intent := {
  incident_id : UUID;
  assignee_email : string;
  breach_type : string
}.

(** A row of [select(SLA, Incident, User)]. *)
Definition Row : Type := SLA.t * Incident.t * option User.t.

Definition row_sla (r : Row) : SLA.t := fst (fst r).
Definition row_incident (r : Row) : Incident.t := snd (fst r).
Definition row_assignee (r : Row) : option User.t := snd r.

(** [.outerjoin(User, Incident.assignee_id == User.id)] for one incident. *)
Definition assignee_rows (db : DB) (incident : Incident.t)
  : list (option User.t) :=
  match filter (fun u => match Incident.assignee_id incident with
                         | Some a => N.eqb a (User.id u)
                         | None => false
                         end) (users db) with
  | [] => [None]
  | us => map Some us
  end.

(** [.join(Incident, SLA.incident_id == Incident.id)] for one SLA. *)
Definition sla_rows (db : DB) (sla : SLA.t) : list Row :=
  flat_map (fun incident =>
              if N.eqb (SLA.incident_id sla) (Incident.id incident)
              then map (fun u => (sla, incident, u)) (assignee_rows db incident)
              else [])
           (incidents db).

Definition joined_rows (db : DB) : list Row :=
  flat_map (sla_rows db) (slas db).

(** The [where] clause of the breach query. *)
Definition breach_where (now : datetime) (r : Row) : bool :=
  (SLAStatus_eqb (SLA.status (row_sla r)) ACTIVE
   && ((is_none (SLA.response_at (row_sla r))
        && (SLA.response_deadline (row_sla r) <? now))
       || ((SLA.resolution_deadline (row_sla r) <? now)
           && is_none (Incident.resolved_at (row_incident r))))
   && is_none (SLA.breach_notified_at (row_sla r)))%bool.

(** [session.execute(stmt).all()] *)
Definition select_breached (db : DB) (now : datetime) : list Row :=
  filter (breach_where now) (joined_rows db).

(** What the collaborators do during one run: whether the query raises,
    whether the [k]-th call of [.delay] (counted from 0) raises, whether
    [session.commit()] raises. *)
Record Env := {
  execute_raises : bool;
  delay_raises : nat -> bool;
  commit_raises : bool
}.

Definition no_failures : Env :=
  {| execute_raises := false;
     delay_raises := fun _ => false;
     commit_raises := false |}.

(** The local state of the loop: the two counters, the SLA objects the
    session holds as modified, and the calls the broker has accepted. *)
Record LoopState := {
  breaches_detected : nat;
  notifications_sent : nat;
  dirty : list SLA.t;
  outbox : list Intent
}.

Definition initial_state : LoopState :=
  {| breaches_detected := 0; notifications_sent := 0;
     dirty := []; outbox := [] |}.

(** [sla.status = SLAStatus.BREACHED; sla.breach_notified_at = now] *)
Definition mark_breached (now : datetime) (sla : SLA.t) : SLA.t :=
  SLA.set_breach_notified_at (Some now) (SLA.set_status BREACHED sla).

(** ["Response" if not sla.response_at else "Resolution"] *)
Definition breach_type_of (sla : SLA.t) : string :=
  if negb (is_set (SLA.response_at sla)) then "Response" else "Resolution".

(** [assignee and assignee.email]: the call made for a row, if any. *)
Definition notification_of (r : Row) : option Intent :=
  match row_assignee r with
  | Some assignee =>
      if negb (String.eqb (User.email assignee) "") then
        Some {| incident_id := Incident.id (row_incident r);
                assignee_email := User.email assignee;
                breach_type := breach_type_of (row_sla r) |}
      else None
  | None => None
  end.

Inductive Control := Finished (st : LoopState) | Raised (st : LoopState).

(** The [for sla, incident, assignee in results] loop. *)
Fixpoint scan_rows (env : Env) (now : datetime) (rows : list Row)
    (st : LoopState) : Control :=
  match rows with
  | [] => Finished st
  | r :: rest =>
      let detected := S (breaches_detected st) in
      let dirty' := (dirty st ++ [mark_breached now (row_sla r)])%list in
      match notification_of r with
      | Some n =>
          if delay_raises env (notifications_sent st) then
            Raised {| breaches_detected := detected;
                      notifications_sent := notifications_sent st;
                      dirty := dirty'; outbox := outbox st |}
          else
            scan_rows env now rest
              {| breaches_detected := detected;
                 notifications_sent := S (notifications_sent st);
                 dirty := dirty'; outbox := (outbox st ++ [n])%list |}
      | None =>
          scan_rows env now rest
            {| breaches_detected := detected;
               notifications_sent := notifications_sent st;
               dirty := dirty'; outbox := outbox st |}
      end
  end.

(** The flush of [session.commit()]: one UPDATE per modified object. *)
Definition flush (objects : list SLA.t) (rows : list SLA.t) : list SLA.t :=
  fold_left (fun rows s' => update_sla_row s' rows) objects rows.

(** The dictionary returned by the task.  The message of the error
    dictionary is not modelled. *)
Inductive ScanResult :=
| Success (breaches_detected notifications_sent : nat)
| Error.

(** [check_sla_breaches]: the database after the run, the calls accepted by
    the broker during the run, and the returned dictionary. *)
Definition check_sla_breaches (env : Env) (db : DB) (now : datetime)
  : DB * list Intent * ScanResult :=
  if execute_raises env then (db, [], Error)
  else
    match scan_rows env now (select_breached db now) initial_state with
    | Raised st => (db, outbox st, Error)
    | Finished st =>
        if commit_raises env then (db, outbox st, Error)
        else
          ({| users := users db;
              incidents := incidents db;
              slas := flush (dirty st) (slas db) |},
           outbox st,
           Success (breaches_detected st) (notifications_sent st))
    end.

(** Number of accepted calls that name the incident [iid]. *)
Definition count_for (iid : UUID) (out : list Intent) : nat :=
  List.length (filter (fun n => N.eqb (incident_id n) iid) out).

(** The calls the loop makes over a list of rows when none of them raises. *)
Definition notifications (rows : list Row) : list Intent :=
  flat_map (fun r => match notification_of r with
                     | Some n => [n]
                     | None => []
                     end) rows.

(** The rows of a result that belong to the incident [iid]. *)
Definition rows_for (iid : UUID) (rows : list Row) : list Row :=
  filter (fun r => N.eqb (Incident.id (row_incident r)) iid) rows.

(** The SLA objects the loop modifies over a list of rows. *)
Definition marked (now : datetime) (rows : list Row) : list SLA.t :=
  map (fun r => mark_breached now (row_sla r)) rows.

(** The row found after the flush at the place of the row [x]. *)
Definition touch (objects : list SLA.t) (x : SLA.t) : SLA.t :=
  fold_left (fun x s' => if N.eqb (SLA.id x) (SLA.id s') then s' else x)
            objects x.

(** The database after a run that committed. *)
Definition committed (db : DB) (now : datetime) : DB :=
  {| users := users db; incidents := incidents db;
     slas := flush (marked now (select_breached db now)) (slas db) |}.

(** *** The warning pass *)

Module Warning.

(** The keyword arguments of one
    [send_approaching_deadline_notification.delay] call. *)
Record t := {
  incident_id : UUID;
  assignee_email : string;
  time_remaining_minutes : Z
}.

End Warning.

(** The [where] clause of the warning query. *)
Definition approaching_where (now : datetime) (r : Row) : bool :=
  let deadline := SLA.resolution_deadline (row_sla r) in
  let priority := Incident.priority (row_incident r) in
  (SLAStatus_eqb (SLA.status (row_sla r)) ACTIVE
   && is_none (Incident.resolved_at (row_incident r))
   && ((match priority with CRITICAL | HIGH => true | _ => false end
        && (now <? deadline)
        && (deadline <=? now + timedelta_hours 1))
       || (match priority with MEDIUM | LOW => true | _ => false end
           && (now <? deadline)
           && (deadline <=? now + timedelta_hours 4))))%bool.

Definition select_approaching (db : DB) (now : datetime) : list Row :=
  filter (approaching_where now) (joined_rows db).

(** The call made for a row of the warning query, if any.  The minutes
    are [int(time_remaining.total_seconds() // 60)]; the query only
    returns rows whose [time_remaining] lies between 0 and 4 hours, where
    the quotient of the two floats is the exact one. *)
Definition warning_of (now : datetime) (r : Row) : option Warning.t :=
  match row_assignee r with
  | Some assignee =>
      if negb (String.eqb (User.email assignee) "") then
        let time_remaining := SLA.resolution_deadline (row_sla r) - now in
        Some {| Warning.incident_id := Incident.id (row_incident r);
                Warning.assignee_email := User.email assignee;
                Warning.time_remaining_minutes :=
                  time_remaining / (60 * 1000000) |}
      else None
  | None => None
  end.

(** The loop of the warning pass: the counter [warnings_sent], the calls
    accepted so far, and whether a call raised. *)
Fixpoint warn_rows (env : Env) (now : datetime) (rows : list Row)
    (warnings_sent : nat) (sent : list Warning.t)
  : nat * list Warning.t * bool :=
  match rows with
  | [] => (warnings_sent, sent, false)
  | r :: rest =>
      match warning_of now r with
      | Some w =>
          if delay_raises env warnings_sent then (warnings_sent, sent, true)
          else warn_rows env now rest (S warnings_sent) (sent ++ [w])%list
      | None => warn_rows env now rest warnings_sent sent
      end
  end.

(** The dictionary returned by the warning pass. *)
Inductive WarningResult :=
| WarningSuccess (warnings_sent : nat)
| WarningError.

(** [check_approaching_deadlines]: the calls accepted by the broker and
    the returned dictionary.  The pass writes nothing to the database. *)
Definition check_approaching_deadlines (env : Env) (db : DB)
    (now : datetime) : list Warning.t * WarningResult :=
  if execute_raises env then ([], WarningError)
  else
    match warn_rows env now (select_approaching db now) 0 [] with
    | (_, sent, true) => (sent, WarningError)
    | (warnings_sent, sent, false) => (sent, WarningSuccess warnings_sent)
    end.

(** The calls the warning loop makes over a list of rows when none of
    them raises. *)
Definition warnings (now : datetime) (rows : list Row) : list Warning.t :=
  flat_map (fun r => match warning_of now r with
                     | Some w => [w]
                     | None => []
                     end) rows.

End SLAChecker.

(** The key constraints of the schema: the primary keys of the three
    tables and [unique=True] on [slas.incident_id]. *)
Definition keys_ok (db : DB) : Prop :=
  NoDup (map User.id (users db))
  /\ NoDup (map Incident.id (incidents db))
  /\ NoDup (map SLA.id (slas db))
  /\ NoDup (map SLA.incident_id (slas db)).

(** The foreign keys of the schema: [slas.incident_id] refers to an
    incident, [incidents.reporter_id] and [incidents.assignee_id] refer to
    users. *)
Definition refs_ok (db : DB) : Prop :=
  (forall s, In s (slas db) ->
     In (SLA.incident_id s) (map Incident.id (incidents db)))
  /\ (forall i, In i (incidents db) ->
        IncidentService.user_exists db (Incident.reporter_id i) = true
        /\ forall a, Incident.assignee_id i = Some a ->
                     IncidentService.user_exists db a = true).

Definition schema_ok (db : DB) : Prop := keys_ok db /\ refs_ok db.

(** One operation of the engine that returns normally, as a step from the
    database before it to the database after it.  An operation that raises
    stores nothing and is no step. *)
Inductive step (settings : Config.Settings) : DB -> DB -> Prop :=
| step_create db data reporter incident_uuid sla_uuid now db' incident :
    IncidentService.create_incident settings db data reporter
      incident_uuid sla_uuid now = inr (db', incident) ->
    step settings db db'
| step_update_status db iid st now db' r :
    IncidentService.update_status db iid st now = inr (db', r) ->
    step settings db db'
| step_assign db iid a db' r :
    IncidentService.assign_incident db iid a = inr (db', r) ->
    step settings db db'
| step_update db iid data db' r :
    IncidentService.update_incident db iid data = inr (db', r) ->
    step settings db db'
| step_delete db iid now db' r :
    IncidentService.delete_incident db iid now = inr (db', r) ->
    step settings db db'
| step_scan env db now db' out res :
    SLAChecker.check_sla_breaches env db now = (db', out, res) ->
    step settings db db'.

(** Any number of operations, one after the other. *)
Inductive steps (settings : Config.Settings) : DB -> DB -> Prop :=
| steps_refl db : steps settings db db
| steps_then db db1 db2 :
    steps settings db db1 -> step settings db1 db2 ->
    steps settings db db2.

(** ** The pause and resume transitions *)

Module SLATransitions.

Inductive TransitionError := InvalidTransition.

(** Modelled from the spec: the operations [pause] and [resume] of the SLA
    state machine, of which the sources hold only the columns [paused_at]
    and [paused_duration] and the request schemas [SLAPauseRequest] and
    [SLAResumeRequest].  [pause(now)] is valid only from ACTIVE and sets
    [paused_at = now] and [status = PAUSED]. *)
Definition pause (now : datetime) (sla : SLA.t) : TransitionError + SLA.t :=
  match SLA.status sla with
  | ACTIVE => inr (SLA.set_status PAUSED (SLA.set_paused_at (Some now) sla))
  | _ => inl InvalidTransition
  end.

(** Modelled from the spec: [resume(now)] is valid only from PAUSED, adds
    [now - paused_at] to the accumulated paused duration, clears
    [paused_at] and sets [status = ACTIVE]; it fails if the SLA is not
    PAUSED. *)
Definition resume (now : datetime) (sla : SLA.t) : TransitionError + SLA.t :=
  match SLA.status sla, SLA.paused_at sla with
  | PAUSED, Some t =>
      inr (SLA.set_status ACTIVE
             (SLA.set_paused_at None
                (SLA.set_paused_duration
                   (SLA.paused_duration sla + (now - t)) sla)))
  | _, _ => inl InvalidTransition
  end.

End SLATransitions.

(** The policy configured for a priority, read off the settings fields. *)
Definition configured (self : Config.Settings) (P : IncidentPriority)
  : Config.Deadlines :=
  match P with
  | CRITICAL =>
      {| Config.response_hours := Config.sla_critical_response self;
         Config.resolution_hours := Config.sla_critical_resolution self |}
  | HIGH =>
      {| Config.response_hours := Config.sla_high_response self;
         Config.resolution_hours := Config.sla_high_resolution self |}
  | MEDIUM =>
      {| Config.response_hours := Config.sla_medium_response self;
         Config.resolution_hours := Config.sla_medium_resolution self |}
  | LOW =>
      {| Config.response_hours := Config.sla_low_response self;
         Config.resolution_hours := Config.sla_low_resolution self |}
  end.

(** ** Concrete data used by the examples *)

Module Examples.

Definition overdue_paused_sla : SLA.t :=
  {| SLA.id := 1%N; SLA.incident_id := 1%N;
     SLA.response_deadline := 50; SLA.resolution_deadline := 100;
     SLA.status := ACTIVE; SLA.response_at := Some 20;
     SLA.paused_at := None; SLA.paused_duration := 10;
     SLA.breach_notified_at := None |}.

Definition alice : User.t :=
  {| User.id := 2%N; User.email := "alice@example.com";
     User.username := "alice" |}.

Definition disk_incident : Incident.t :=
  {| Incident.id := 7%N; Incident.title := "Disk full";
     Incident.description := "Volume at 100%";
     Incident.status := IN_PROGRESS; Incident.priority := HIGH;
     Incident.reporter_id := 1%N; Incident.assignee_id := Some 2%N;
     Incident.resolved_at := None; Incident.closed_at := None;
     Incident.deleted_at := None |}.

Definition disk_sla : SLA.t :=
  {| SLA.id := 70%N; SLA.incident_id := 7%N;
     SLA.response_deadline := 10; SLA.resolution_deadline := 20;
     SLA.status := ACTIVE; SLA.response_at := Some 5;
     SLA.paused_at := None; SLA.paused_duration := 0;
     SLA.breach_notified_at := None |}.

(** One incident in progress whose SLA deadlines are 10 and 20. *)
Definition db_disk : DB :=
  {| users := [alice]; incidents := [disk_incident]; slas := [disk_sla] |}.

(** The same incident without an SLA row. *)
Definition db_disk_no_sla : DB :=
  {| users := [alice]; incidents := [disk_incident]; slas := [] |}.

Definition bob : User.t :=
  {| User.id := 3%N; User.email := "bob@example.com";
     User.username := "bob" |}.

Definition net_incident : Incident.t :=
  {| Incident.id := 8%N; Incident.title := "Network down";
     Incident.description := "No route to the data centre";
     Incident.status := IN_PROGRESS; Incident.priority := CRITICAL;
     Incident.reporter_id := 1%N; Incident.assignee_id := Some 3%N;
     Incident.resolved_at := None; Incident.closed_at := None;
     Incident.deleted_at := None |}.

Definition net_sla : SLA.t :=
  {| SLA.id := 80%N; SLA.incident_id := 8%N;
     SLA.response_deadline := 10; SLA.resolution_deadline := 20;
     SLA.status := ACTIVE; SLA.response_at := None;
     SLA.paused_at := None; SLA.paused_duration := 0;
     SLA.breach_notified_at := None |}.

(** Two assigned incidents whose SLAs are both past their deadlines at
    time 100. *)
Definition db_two : DB :=
  {| users := [alice; bob];
     incidents := [disk_incident; net_incident];
     slas := [disk_sla; net_sla] |}.

(** The broker accepts the first call of a run and raises on the second. *)
Definition broker_fails_on_second_call : SLAChecker.Env :=
  {| SLAChecker.execute_raises := false;
     SLAChecker.delay_raises := fun k => Nat.eqb k 1;
     SLAChecker.commit_raises := false |}.

Definition disk_intent : SLAChecker.Intent :=
  {| SLAChecker.incident_id := 7%N;
     SLAChecker.assignee_email := "alice@example.com";
     SLAChecker.breach_type := "Resolution" |}.

Definition net_intent : SLAChecker.Intent :=
  {| SLAChecker.incident_id := 8%N;
     SLAChecker.assignee_email := "bob@example.com";
     SLAChecker.breach_type := "Response" |}.

Definition carol : User.t :=
  {| User.id := 4%N; User.email := ""; User.username := "carol" |}.

Definition printer_incident : Incident.t :=
  {| Incident.id := 9%N; Incident.title := "Printer jam";
     Incident.description := "Tray 2";
     Incident.status := IN_PROGRESS; Incident.priority := LOW;
     Incident.reporter_id := 1%N; Incident.assignee_id := Some 4%N;
     Incident.resolved_at := None; Incident.closed_at := None;
     Incident.deleted_at := None |}.

Definition printer_sla : SLA.t :=
  {| SLA.id := 90%N; SLA.incident_id := 9%N;
     SLA.response_deadline := 10; SLA.resolution_deadline := 20;
     SLA.status := ACTIVE; SLA.response_at := None;
     SLA.paused_at := None; SLA.paused_duration := 0;
     SLA.breach_notified_at := None |}.

(** An overdue incident assigned to a user whose email is empty. *)
Definition db_blank_email : DB :=
  {| users := [carol]; incidents := [printer_incident];
     slas := [printer_sla] |}.

Definition deleted_disk_incident : Incident.t :=
  {| Incident.id := 7%N; Incident.title := "Disk full";
     Incident.description := "Volume at 100%";
     Incident.status := IN_PROGRESS; Incident.priority := HIGH;
     Incident.reporter_id := 1%N; Incident.assignee_id := Some 2%N;
     Incident.resolved_at := None; Incident.closed_at := None;
     Incident.deleted_at := Some 15 |}.

(** The incident of [db_disk] after [delete_incident] at time 15. *)
Definition db_deleted : DB :=
  {| users := [alice]; incidents := [deleted_disk_incident];
     slas := [disk_sla] |}.

Definition triage : IncidentService.IncidentUpdate.t :=
  {| IncidentService.IncidentUpdate.title := None;
     IncidentService.IncidentUpdate.description := None;
     IncidentService.IncidentUpdate.status := Some (Some RESOLVED);
     IncidentService.IncidentUpdate.priority := Some (Some CRITICAL);
     IncidentService.IncidentUpdate.assignee_id := None |}.

Definition mail_incident : Incident.t :=
  {| Incident.id := 11%N; Incident.title := "Mail bounces";
     Incident.description := "Relay refuses connections";
     Incident.status := OPEN; Incident.priority := MEDIUM;
     Incident.reporter_id := 2%N; Incident.assignee_id := None;
     Incident.resolved_at := None; Incident.closed_at := None;
     Incident.deleted_at := None |}.

Definition mail_sla : SLA.t :=
  {| SLA.id := 110%N; SLA.incident_id := 11%N;
     SLA.response_deadline := 1000; SLA.resolution_deadline := 2000;
     SLA.status := ACTIVE; SLA.response_at := None;
     SLA.paused_at := None; SLA.paused_duration := 0;
     SLA.breach_notified_at := None |}.

(** An open, unassigned incident reported by alice, with its SLA. *)
Definition db_mail : DB :=
  {| users := [alice; bob]; incidents := [mail_incident];
     slas := [mail_sla] |}.

Definition paused_disk_sla : SLA.t :=
  {| SLA.id := 70%N; SLA.incident_id := 7%N;
     SLA.response_deadline := 10; SLA.resolution_deadline := 20;
     SLA.status := PAUSED; SLA.response_at := Some 5;
     SLA.paused_at := Some 8; SLA.paused_duration := 0;
     SLA.breach_notified_at := None |}.

(** The two incidents of [db_two], both past their deadlines at time 100,
    with the SLA of incident 7 paused at time 8. *)
Definition db_two_paused : DB :=
  {| users := [alice; bob];
     incidents := [disk_incident; net_incident];
     slas := [paused_disk_sla; net_sla] |}.

End Examples.

(** * Properties *)

(** ** Policy lookup *)

Module ConfigFacts.
Import Config.

Lemma lower_priority_value (P : IncidentPriority) :
  lower (priority_value P) = priority_value P.
Proof. destruct P; reflexivity. Qed.

Lemma get_sla_deadlines_known (self : Settings) (p : string)
    (P : IncidentPriority) :
  lower p = priority_value P -> get_sla_deadlines self p = configured self P.
Proof.
  intros H. unfold get_sla_deadlines. rewrite H.
  destruct P; reflexivity.
Qed.

Lemma get_sla_deadlines_unknown (self : Settings) (p : string) :
  (forall P, lower p <> priority_value P) ->
  get_sla_deadlines self p = configured self MEDIUM.
Proof.
  intros H. unfold get_sla_deadlines.
  destruct (String.eqb_spec (lower p) "critical") as [E|_];
    [exfalso; exact (H CRITICAL E)|].
  destruct (String.eqb_spec (lower p) "high") as [E|_];
    [exfalso; exact (H HIGH E)|].
  destruct (String.eqb_spec (lower p) "medium") as [E|_];
    [exfalso; exact (H MEDIUM E)|].
  destruct (String.eqb_spec (lower p) "low") as [E|_];
    [exfalso; exact (H LOW E)|].
  reflexivity.
Qed.

(** C7.  The policy lookup is a total function of the priority string: it
    returns a result for every string.  For a string that is, up to letter
    case, the name of one of the four priorities it returns the hours
    configured for that priority; with the default settings these are
    CRITICAL 1/4, HIGH 4/24, MEDIUM 8/72 and LOW 24/168 hours.  For every
    other string it returns the MEDIUM policy. *)
Theorem deadlines_for_total (self : Settings) (p : string) :
  (exists d, get_sla_deadlines self p = d)
  /\ (forall P, lower p = priority_value P ->
        get_sla_deadlines self p = configured self P)
  /\ (forall P, get_sla_deadlines self (priority_value P) = configured self P)
  /\ (forall P,
        get_sla_deadlines default_settings (priority_value P)
        = match P with
          | CRITICAL => {| response_hours := 1; resolution_hours := 4 |}
          | HIGH => {| response_hours := 4; resolution_hours := 24 |}
          | MEDIUM => {| response_hours := 8; resolution_hours := 72 |}
          | LOW => {| response_hours := 24; resolution_hours := 168 |}
          end)
  /\ ((forall P, lower p <> priority_value P) ->
        get_sla_deadlines self p
        = {| response_hours := sla_medium_response self;
             resolution_hours := sla_medium_resolution self |}).
Proof.
  split; [eexists; reflexivity|].
  split; [intros P; apply get_sla_deadlines_known|].
  split; [intros P; apply get_sla_deadlines_known, lower_priority_value|].
  split; [intros P; destruct P; reflexivity|].
  apply get_sla_deadlines_unknown.
Qed.

(** C7 at an unknown name and at a known name in upper case. *)
Lemma deadlines_for_total_witness :
  get_sla_deadlines default_settings "Urgent"
  = {| response_hours := 8; resolution_hours := 72 |}
  /\ get_sla_deadlines default_settings "CRITICAL"
     = {| response_hours := 1; resolution_hours := 4 |}.
Proof.
  split.
  - apply (proj2 (proj2 (proj2 (proj2
             (deadlines_for_total default_settings "Urgent"))))).
    intros P; destruct P; discriminate.
  - apply (proj1 (proj2
             (deadlines_for_total default_settings "CRITICAL")) CRITICAL).
    reflexivity.
Defined.

End ConfigFacts.

(** ** Derived queries of the SLA entity *)

Module SLAFacts.

Lemma SLAStatus_eqb_eq (a b : SLAStatus) : SLAStatus_eqb a b = true <-> a = b.
Proof.
  destruct a, b; simpl; split; intros H; try reflexivity; discriminate.
Qed.

Lemma is_set_false {A : Type} (o : option A) : is_set o = false <-> o = None.
Proof. destruct o; simpl; split; intros H; try reflexivity; discriminate. Qed.

Lemma is_none_true {A : Type} (o : option A) : is_none o = true <-> o = None.
Proof. destruct o; simpl; split; intros H; try reflexivity; discriminate. Qed.

(** C4, as stated, fails: an ACTIVE SLA with nominal resolution deadline
    100 that was paused for 10 is reported as resolution-breached at time
    105, although 105 is not past the deadline extended by the paused
    duration (110). *)
Lemma is_resolution_breached_ignores_pause :
  SLA.is_resolution_breached Examples.overdue_paused_sla 105 = true
  /\ ~ (SLA.status Examples.overdue_paused_sla <> MET
        /\ 105 > SLA.resolution_deadline Examples.overdue_paused_sla
                 + SLA.paused_duration Examples.overdue_paused_sla).
Proof.
  split; [reflexivity|]. simpl. intros [_ H]. lia.
Qed.

(** C4, amended.  [is_response_breached] is true exactly when
    [response_at] is unset and [now] is strictly after the response
    deadline; [is_resolution_breached] is true exactly when the status is
    not MET and [now] is strictly after the nominal resolution deadline
    (the paused duration is not added). *)
Theorem breach_queries_spec (s : SLA.t) (now : datetime) :
  (SLA.is_response_breached s now = true
   <-> SLA.response_at s = None /\ now > SLA.response_deadline s)
  /\ (SLA.is_resolution_breached s now = true
      <-> SLA.status s <> MET /\ now > SLA.resolution_deadline s).
Proof.
  unfold SLA.is_response_breached, SLA.is_resolution_breached. split.
  - destruct (SLA.response_at s) as [t|]; simpl.
    + split; [discriminate | intros [H _]; discriminate].
    + rewrite Z.ltb_lt. split; [intros H; split; [reflexivity | lia] | lia].
  - destruct (SLAStatus_eqb (SLA.status s) MET) eqn:E.
    + apply SLAStatus_eqb_eq in E. split; [discriminate | intros [H _]; tauto].
    + rewrite Z.ltb_lt. split.
      * intros H; split; [|lia]. intros Hm. apply SLAStatus_eqb_eq in Hm.
        congruence.
      * lia.
Qed.

End SLAFacts.

(** ** Incident service *)

Module IncidentServiceFacts.
Import IncidentService.

Lemma filter_singleton_In {A : Type} (p : A -> bool) (l : list A) (x : A) :
  filter p l = [x] -> In x l /\ p x = true.
Proof.
  intros H. apply filter_In. rewrite H. left. reflexivity.
Qed.

Lemma get_incident_Some (db : DB) (iid : UUID) (i : Incident.t) :
  get_incident db iid = inr (Some i) ->
  In i (incidents db) /\ Incident.id i = iid /\ Incident.deleted_at i = None.
Proof.
  unfold get_incident. intros H.
  destruct (filter _ (incidents db)) as [|x [|y l]] eqn:E; try discriminate.
  injection H as ->. apply filter_singleton_In in E. destruct E as [Hin Hp].
  apply andb_true_iff in Hp. destruct Hp as [Hid Hdel].
  apply N.eqb_eq in Hid. apply SLAFacts.is_none_true in Hdel. auto.
Qed.

Lemma In_update_incident_row (i i' : Incident.t) (rows : list Incident.t) :
  In i rows -> Incident.id i = Incident.id i' ->
  In i' (update_incident_row i' rows).
Proof.
  intros Hin Hid. unfold update_incident_row. apply in_map_iff.
  exists i. split; [|exact Hin]. rewrite Hid, N.eqb_refl. reflexivity.
Qed.

(** Reading back through the relationship after the UPDATE of the SLA the
    relationship pointed to. *)
Lemma find_update_sla_row (k : UUID) (s s' : SLA.t) (rows : list SLA.t) :
  find (fun x => N.eqb (SLA.incident_id x) k) rows = Some s ->
  SLA.id s' = SLA.id s -> SLA.incident_id s' = k ->
  find (fun x => N.eqb (SLA.incident_id x) k) (update_sla_row s' rows)
  = Some s'.
Proof.
  intros Hfind Hid Hk. induction rows as [|x rows IH]; simpl in *.
  - discriminate.
  - destruct (N.eqb (SLA.incident_id x) k) eqn:Ex.
    + injection Hfind as ->. rewrite Hid, N.eqb_refl.
      rewrite Hk, N.eqb_refl. reflexivity.
    + destruct (N.eqb (SLA.id x) (SLA.id s')).
      * rewrite Hk, N.eqb_refl. reflexivity.
      * rewrite Ex. apply IH. exact Hfind.
Qed.

Lemma existsb_key {A : Type} (f : A -> UUID) (k : UUID) (l : list A) :
  existsb (fun x => N.eqb (f x) k) l = true <-> In k (map f l).
Proof.
  rewrite existsb_exists, in_map_iff. split.
  - intros [x [Hin Hx]]. exists x. apply N.eqb_eq in Hx. auto.
  - intros [x [Hx Hin]]. exists x. split; [exact Hin|].
    apply N.eqb_eq. exact Hx.
Qed.

Lemma existsb_key_false {A : Type} (f : A -> UUID) (k : UUID) (l : list A) :
  existsb (fun x => N.eqb (f x) k) l = false <-> ~ In k (map f l).
Proof.
  rewrite <- existsb_key. destruct (existsb _ l); split; intros H;
    try reflexivity; try discriminate.
  exfalso. apply H. reflexivity.
Qed.

(** What a call of [create_incident] that returns has found and stored. *)
Lemma create_incident_returns (settings : Config.Settings) (db db' : DB)
    (data : IncidentCreate) (reporter incident_uuid sla_uuid : UUID)
    (now : datetime) (incident : Incident.t) :
  create_incident settings db data reporter incident_uuid sla_uuid now
  = inr (db', incident) ->
  ~ In incident_uuid (map Incident.id (incidents db))
  /\ user_exists db reporter = true
  /\ ~ In sla_uuid (map SLA.id (slas db))
  /\ ~ In incident_uuid (map SLA.incident_id (slas db))
  /\ Incident.id incident = incident_uuid
  /\ Incident.reporter_id incident = reporter
  /\ Incident.assignee_id incident = None
  /\ Incident.deleted_at incident = None
  /\ exists sla,
       db' = {| users := users db;
                incidents := incidents db ++ [incident];
                slas := slas db ++ [sla] |}
       /\ SLA.id sla = sla_uuid
       /\ SLA.incident_id sla = incident_uuid
       /\ SLA.status sla = ACTIVE
       /\ SLA.breach_notified_at sla = None.
Proof.
  unfold create_incident, flush_incident, commit_sla. simpl.
  destruct (existsb _ (incidents db)) eqn:Ei; simpl; [discriminate|].
  destruct (user_exists db reporter) eqn:Eu; simpl; [|discriminate].
  destruct (existsb _ (slas db)) eqn:Es; simpl; [discriminate|].
  destruct (existsb _ (slas db)) eqn:Ek in |- *; simpl; [discriminate|].
  intros H. injection H as <- <-. simpl.
  apply existsb_key_false in Ei, Es, Ek.
  repeat (split; [first [assumption | reflexivity]|]).
  eexists. repeat split.
Qed.

(** C8.  For every priority [P], creating an incident with priority [P]
    for a reporter that is a user, under primary keys that are new and
    with no SLA stored for the new incident's key, returns and stores the
    incident together with exactly one SLA: the SLA belongs to the new
    incident, is ACTIVE, and its response and resolution deadlines are the
    time of its creation (the reading [now] of the clock the call takes
    when it builds the SLA) plus the response and resolution hours
    configured for [P].  The two rows are written in the same transaction:
    in every other case, also when the incident passed its flush and only
    the SLA is refused at the commit, the call raises and stores neither
    row. *)
Theorem create_incident_creates_sla (settings : Config.Settings) (db : DB)
    (data : IncidentCreate) (reporter incident_uuid sla_uuid : UUID)
    (now : datetime) :
  (~ In incident_uuid (map Incident.id (incidents db)) ->
   user_exists db reporter = true ->
   ~ In sla_uuid (map SLA.id (slas db)) ->
   ~ In incident_uuid (map SLA.incident_id (slas db)) ->
   exists db' incident sla,
     create_incident settings db data reporter incident_uuid sla_uuid now
     = inr (db', incident)
     /\ users db' = users db
     /\ incidents db' = (incidents db ++ [incident])%list
     /\ slas db' = (slas db ++ [sla])%list
     /\ Incident.id incident = incident_uuid
     /\ Incident.priority incident = priority data
     /\ Incident.reporter_id incident = reporter
     /\ Incident.status incident = OPEN
     /\ filter (fun s => N.eqb (SLA.incident_id s) (Incident.id incident))
          (slas db') = [sla]
     /\ SLA.id sla = sla_uuid
     /\ SLA.status sla = ACTIVE
     /\ SLA.response_deadline sla
        = now + Config.response_hours (configured settings (priority data))
                * (3600 * 1000000)
     /\ SLA.resolution_deadline sla
        = now + Config.resolution_hours (configured settings (priority data))
                * (3600 * 1000000))
  /\ (In incident_uuid (map Incident.id (incidents db))
      \/ user_exists db reporter = false
      \/ In sla_uuid (map SLA.id (slas db))
      \/ In incident_uuid (map SLA.incident_id (slas db)) ->
      create_incident settings db data reporter incident_uuid sla_uuid now
      = inl IntegrityError)
  /\ (forall pending,
        flush_incident db
          {| Incident.id := incident_uuid;
             Incident.title := title data;
             Incident.description := description data;
             Incident.status := OPEN;
             Incident.priority := priority data;
             Incident.reporter_id := reporter;
             Incident.assignee_id := None;
             Incident.resolved_at := None;
             Incident.closed_at := None;
             Incident.deleted_at := None |} = inr pending ->
        In sla_uuid (map SLA.id (slas db)) ->
        In incident_uuid (map Incident.id (incidents pending))
        /\ create_incident settings db data reporter incident_uuid
             sla_uuid now = inl IntegrityError).
Proof.
  split; [|split].
  - intros Hi Hu Hs Hk.
    apply existsb_key_false in Hi, Hs, Hk.
    unfold create_incident, flush_incident, commit_sla. simpl.
    rewrite Hi, Hu. simpl. rewrite Hs, Hk. simpl.
    do 3 eexists. split; [reflexivity|]. simpl.
    repeat (split; [reflexivity|]).
    split.
    { rewrite filter_app. simpl. rewrite N.eqb_refl.
      replace (filter _ (slas db)) with (@nil SLA.t); [reflexivity|].
      symmetry. clear - Hk. induction (slas db) as [|x l IH]; simpl in *.
      - reflexivity.
      - apply orb_false_iff in Hk. destruct Hk as [Hx Hl].
        rewrite Hx. apply IH. exact Hl. }
    rewrite ConfigFacts.get_sla_deadlines_known
      with (P := priority data) by apply ConfigFacts.lower_priority_value.
    repeat split.
  - intros H. unfold create_incident, flush_incident, commit_sla. simpl.
    destruct (existsb _ (incidents db)) eqn:Ei; simpl; [reflexivity|].
    destruct (user_exists db reporter) eqn:Eu; simpl; [|reflexivity].
    destruct (existsb (fun s => N.eqb (SLA.id s) sla_uuid) (slas db))
      eqn:Es; simpl; [reflexivity|].
    destruct (existsb (fun s => N.eqb (SLA.incident_id s) incident_uuid)
                (slas db)) eqn:Ek; simpl; [reflexivity|].
    apply existsb_key_false in Ei, Es, Ek.
    destruct H as [H|[H|[H|H]]]; try contradiction. discriminate.
  - intros pending Hflush Hs. split.
    + unfold flush_incident in Hflush. simpl in Hflush.
      destruct (_ || _)%bool; [discriminate|]. injection Hflush as <-.
      simpl. rewrite map_app. apply in_or_app. right. left. reflexivity.
    + apply existsb_key in Hs.
      unfold create_incident. rewrite Hflush.
      unfold flush_incident in Hflush. simpl in Hflush.
      destruct (_ || _)%bool; [discriminate|]. injection Hflush as <-.
      unfold commit_sla. simpl. rewrite Hs. reflexivity.
Qed.

(** C8 in [db_mail]: alice reports a HIGH incident at time 0 under the new
    keys 12 and 120; the default policy for HIGH is 4 and 24 hours.  Under
    the key 110, which the SLA of the stored incident holds, the incident
    passes its flush, the commit refuses the SLA and nothing is stored. *)
Lemma create_incident_creates_sla_witness :
  (exists db' incident sla,
     create_incident Config.default_settings Examples.db_mail
       {| title := "Login fails"; description := "Password form";
          priority := HIGH |} 2%N 12%N 120%N 0
     = inr (db', incident)
     /\ incidents db' = [Examples.mail_incident; incident]
     /\ slas db' = [Examples.mail_sla; sla]
     /\ SLA.status sla = ACTIVE
     /\ SLA.response_deadline sla = 4 * (3600 * 1000000)
     /\ SLA.resolution_deadline sla = 24 * (3600 * 1000000))
  /\ create_incident Config.default_settings Examples.db_mail
       {| title := "Login fails"; description := "Password form";
          priority := HIGH |} 2%N 12%N 110%N 0
     = inl IntegrityError.
Proof.
  split.
  - destruct (proj1 (create_incident_creates_sla Config.default_settings
                       Examples.db_mail
                       {| title := "Login fails";
                          description := "Password form";
                          priority := HIGH |} 2%N 12%N 120%N 0))
      as [db' [incident [sla H]]].
    + simpl. intros [H|[]]. discriminate.
    + reflexivity.
    + simpl. intros [H|[]]. discriminate.
    + simpl. intros [H|[]]. discriminate.
    + exists db', incident, sla.
      destruct H as [Hrun [_ [Hi [Hs [_ [_ [_ [_ [_ [_ [Ha [Hr Hl]]]]]]]]]]]].
      split; [exact Hrun|]. split; [exact Hi|]. split; [exact Hs|].
      split; [exact Ha|]. split; [exact Hr|exact Hl].
  - refine (proj2 (proj2 (proj2 (create_incident_creates_sla
                                   Config.default_settings Examples.db_mail
                                   {| title := "Login fails";
                                      description := "Password form";
                                      priority := HIGH |}
                                   2%N 12%N 110%N 0))
                     _ eq_refl _)).
    left. reflexivity.
Defined.

(** C1, as stated, fails: the incident of [db_disk] owns an ACTIVE SLA
    with resolution deadline 20 and no paused time; resolving it at time
    100, past the deadline, sets the SLA to MET. *)
Lemma late_resolution_sets_met :
  exists db' i',
    update_status Examples.db_disk 7%N RESOLVED 100 = inr (db', Some i')
    /\ option_map SLA.status
         (incident_sla Examples.db_disk Examples.disk_incident) = Some ACTIVE
    /\ option_map SLA.status (incident_sla db' i') = Some MET
    /\ ~ (100 <= SLA.resolution_deadline Examples.disk_sla
                 + SLA.paused_duration Examples.disk_sla).
Proof.
  do 2 eexists. split; [reflexivity|].
  split; [reflexivity|]. split; [reflexivity|]. simpl. lia.
Qed.

(** C1, amended.  For a live incident that owns an SLA, whatever the
    status of the SLA and whatever the time: [update_status] to RESOLVED
    sets the SLA's status to MET when [resolved_at] was unset, without
    comparing the resolution time with any deadline; when [resolved_at]
    was already set the SLA table is left as it is. *)
Theorem resolve_sets_sla_met (db : DB) (iid : UUID) (now : datetime)
    (i : Incident.t) (s : SLA.t) :
  get_incident db iid = inr (Some i) ->
  incident_sla db i = Some s ->
  exists db' i',
    update_status db iid RESOLVED now = inr (db', Some i')
    /\ (Incident.resolved_at i = None ->
        incident_sla db' i' = Some (SLA.set_status MET s))
    /\ (Incident.resolved_at i <> None -> slas db' = slas db).
Proof.
  intros Hget Hsla. unfold update_status. rewrite Hget, Hsla. simpl.
  destruct (Incident.resolved_at i) as [t|] eqn:Er; simpl.
  - do 2 eexists. split; [reflexivity|]. split; [discriminate|reflexivity].
  - do 2 eexists. split; [reflexivity|]. split; [|congruence].
    intros _. unfold incident_sla in *. simpl.
    apply find_update_sla_row with (s := s); [exact Hsla|reflexivity|].
    simpl. apply find_some in Hsla. destruct Hsla as [_ H].
    apply N.eqb_eq in H. exact H.
Qed.

(** The amended C1 at [db_disk], resolved at time 100. *)
Lemma resolve_sets_sla_met_witness :
  exists db' i',
    update_status Examples.db_disk 7%N RESOLVED 100 = inr (db', Some i')
    /\ (Incident.resolved_at Examples.disk_incident = None ->
        incident_sla db' i' = Some (SLA.set_status MET Examples.disk_sla))
    /\ (Incident.resolved_at Examples.disk_incident <> None ->
        slas db' = slas Examples.db_disk).
Proof.
  apply (resolve_sets_sla_met Examples.db_disk 7%N 100
           Examples.disk_incident Examples.disk_sla); reflexivity.
Defined.

(** C10.  For a live incident with no SLA, [update_status] to RESOLVED
    raises nothing and returns the updated incident: its status is
    RESOLVED, [resolved_at] is the current time when it was unset before
    (and is kept otherwise), the row is written to the incidents table and
    the SLA table is not touched. *)
Theorem resolve_without_sla (db : DB) (iid : UUID) (now : datetime)
    (i : Incident.t) :
  get_incident db iid = inr (Some i) ->
  incident_sla db i = None ->
  exists db' i',
    update_status db iid RESOLVED now = inr (db', Some i')
    /\ Incident.id i' = Incident.id i
    /\ Incident.status i' = RESOLVED
    /\ (Incident.resolved_at i = None -> Incident.resolved_at i' = Some now)
    /\ (Incident.resolved_at i <> None ->
        Incident.resolved_at i' = Incident.resolved_at i)
    /\ In i' (incidents db')
    /\ slas db' = slas db.
Proof.
  intros Hget Hsla. unfold update_status. rewrite Hget, Hsla. simpl.
  apply get_incident_Some in Hget. destruct Hget as [Hin _].
  destruct (Incident.resolved_at i) as [t|] eqn:Er; simpl;
    do 2 eexists; (split; [reflexivity|]); simpl;
    (repeat split; try congruence);
    apply In_update_incident_row with (i := i); auto.
Qed.

(** C10 at [db_disk_no_sla], resolved at time 100. *)
Lemma resolve_without_sla_witness :
  exists db' i',
    update_status Examples.db_disk_no_sla 7%N RESOLVED 100
    = inr (db', Some i')
    /\ Incident.status i' = RESOLVED
    /\ Incident.resolved_at i' = Some 100.
Proof.
  destruct (resolve_without_sla Examples.db_disk_no_sla 7%N 100
              Examples.disk_incident eq_refl eq_refl)
    as (db' & i' & H & _ & Hs & Hr & _).
  exists db', i'. split; [exact H|]. split; [exact Hs|].
  apply Hr. reflexivity.
Defined.

End IncidentServiceFacts.

(** ** Pause and resume *)

Module SLATransitionsFacts.
Import SLATransitions.

(** C9.  [pause] at time [t] on an ACTIVE SLA followed by [resume] at time
    [t + D] both succeed; the result is ACTIVE, has [paused_at] cleared and
    its accumulated paused duration is the former one plus exactly [D].
    [resume] on an SLA that is not PAUSED fails with an explicit error and
    returns no changed SLA. *)
Theorem pause_resume_adds_duration (s r : SLA.t) (t D now : Z) :
  SLA.status s = ACTIVE ->
  SLA.status r <> PAUSED ->
  (exists s1 s2,
      pause t s = inr s1
      /\ SLA.status s1 = PAUSED /\ SLA.paused_at s1 = Some t
      /\ resume (t + D) s1 = inr s2
      /\ SLA.paused_duration s2 = SLA.paused_duration s + D
      /\ SLA.paused_at s2 = None
      /\ SLA.status s2 = ACTIVE)
  /\ resume now r = inl InvalidTransition.
Proof.
  intros Hs Hr. split.
  - unfold pause. rewrite Hs. do 2 eexists. split; [reflexivity|].
    split; [reflexivity|]. split; [reflexivity|].
    unfold resume. simpl. split; [reflexivity|]. simpl.
    split; [f_equal; lia|]. split; reflexivity.
  - unfold resume. destruct (SLA.status r); try reflexivity. congruence.
Qed.

(** C9 at the SLA of [db_disk]: paused at 30, resumed 12 later. *)
Lemma pause_resume_adds_duration_witness :
  (exists s1 s2,
      pause 30 Examples.disk_sla = inr s1
      /\ SLA.status s1 = PAUSED /\ SLA.paused_at s1 = Some 30
      /\ resume (30 + 12) s1 = inr s2
      /\ SLA.paused_duration s2 = SLA.paused_duration Examples.disk_sla + 12
      /\ SLA.paused_at s2 = None
      /\ SLA.status s2 = ACTIVE)
  /\ resume 50 Examples.disk_sla = inl InvalidTransition.
Proof.
  apply (pause_resume_adds_duration Examples.disk_sla Examples.disk_sla
           30 12 50); [reflexivity | discriminate].
Defined.

End SLATransitionsFacts.

(** ** Breach scan *)

Module SLACheckerFacts.
Import SLAChecker.

(** *** Lists keyed by a unique column *)

Section Keyed.
Context {A B : Type}.
Variable key : A -> N.

Lemma flat_map_all_nil (f : A -> list B) (l : list A) :
  (forall x, In x l -> f x = []) -> flat_map f l = [].
Proof.
  induction l as [|a l IH]; simpl; intros H; [reflexivity|].
  rewrite (H a) by (left; reflexivity). simpl. apply IH.
  intros x Hx. apply H. right. exact Hx.
Qed.

Lemma flat_map_at_most_one (k : N) (f : A -> list B) (l : list A) :
  NoDup (map key l) ->
  (forall x, In x l -> key x <> k -> f x = []) ->
  (forall x, In x l -> (List.length (f x) <= 1)%nat) ->
  (List.length (flat_map f l) <= 1)%nat.
Proof.
  induction l as [|a l IH]; simpl; intros Hnd Hnil Hle; [lia|].
  inversion Hnd as [|? ? Hnotin Hnd']; subst.
  rewrite length_app.
  destruct (N.eq_dec (key a) k) as [E|E].
  - rewrite (flat_map_all_nil f l).
    + simpl. specialize (Hle a (or_introl eq_refl)). lia.
    + intros x Hx. apply Hnil; [right; exact Hx|].
      intros Hk. apply Hnotin. rewrite E, <- Hk. apply in_map. exact Hx.
  - rewrite (Hnil a (or_introl eq_refl) E). simpl. apply IH; auto.
Qed.

Lemma NoDup_key_inj (l : list A) (x y : A) :
  NoDup (map key l) -> In x l -> In y l -> key x = key y -> x = y.
Proof.
  induction l as [|a l IH]; simpl; intros Hnd Hx Hy E; [contradiction|].
  inversion Hnd as [|? ? Hnotin Hnd']; subst.
  destruct Hx as [->|Hx], Hy as [->|Hy]; auto.
  - exfalso. apply Hnotin. rewrite E. apply in_map. exact Hy.
  - exfalso. apply Hnotin. rewrite <- E. apply in_map. exact Hx.
Qed.

End Keyed.

Lemma filter_flat_map {A B : Type} (p : B -> bool) (f : A -> list B)
    (l : list A) :
  filter p (flat_map f l) = flat_map (fun x => filter p (f x)) l.
Proof.
  induction l as [|a l IH]; simpl; [reflexivity|].
  rewrite filter_app, IH. reflexivity.
Qed.

Lemma filter_as_flat_map {A : Type} (p : A -> bool) (l : list A) :
  filter p l = flat_map (fun x => if p x then [x] else []) l.
Proof.
  induction l as [|a l IH]; simpl; [reflexivity|].
  rewrite IH. destruct (p a); reflexivity.
Qed.

Lemma length_filter_le {A : Type} (p : A -> bool) (l : list A) :
  (List.length (filter p l) <= List.length l)%nat.
Proof.
  induction l as [|a l IH]; simpl; [lia|]. destruct (p a); simpl; lia.
Qed.

Lemma at_most_one_In {A : Type} (l : list A) (x : A) :
  (List.length l <= 1)%nat -> In x l -> l = [x].
Proof.
  destruct l as [|a [|b l]]; simpl; intros Hl Hin.
  - contradiction.
  - destruct Hin as [->|[]]. reflexivity.
  - lia.
Qed.

Lemma filter_false_nil {A : Type} (l : list A) :
  filter (fun _ => false) l = [].
Proof. induction l as [|a l IH]; simpl; [reflexivity | exact IH]. Qed.

(** *** The join *)

Lemma assignee_rows_at_most_one (db : DB) (i : Incident.t) :
  NoDup (map User.id (users db)) ->
  (List.length (assignee_rows db i) <= 1)%nat.
Proof.
  intros Hnd. unfold assignee_rows.
  destruct (Incident.assignee_id i) as [a|].
  - assert (H : (List.length (filter (fun u => N.eqb a (User.id u))
                                (users db)) <= 1)%nat).
    { rewrite filter_as_flat_map.
      apply (flat_map_at_most_one User.id a); [exact Hnd| |].
      - intros u _ Hk. destruct (N.eqb_spec a (User.id u)); congruence.
      - intros u _. destruct (N.eqb a (User.id u)); simpl; lia. }
    destruct (filter _ (users db)) as [|u us]; simpl in *; [lia|].
    rewrite length_map. exact H.
  - rewrite filter_false_nil. simpl. lia.
Qed.

Lemma assignee_rows_In (db : DB) (i : Incident.t) (u : User.t) :
  In (Some u) (assignee_rows db i) ->
  In u (users db) /\ Incident.assignee_id i = Some (User.id u).
Proof.
  unfold assignee_rows. intros H.
  destruct (filter _ (users db)) as [|u0 us] eqn:E.
  - destruct H as [H|[]]. discriminate.
  - rewrite <- E in H. apply in_map_iff in H.
    destruct H as (u' & Hu & Hin). injection Hu as ->.
    apply filter_In in Hin. destruct Hin as [Hin Hp]. split; [exact Hin|].
    destruct (Incident.assignee_id i) as [a|]; [|discriminate].
    apply N.eqb_eq in Hp. congruence.
Qed.

Lemma sla_rows_In (db : DB) (s : SLA.t) (r : Row) :
  In r (sla_rows db s) ->
  row_sla r = s /\ In (row_incident r) (incidents db)
  /\ SLA.incident_id s = Incident.id (row_incident r)
  /\ In (row_assignee r) (assignee_rows db (row_incident r)).
Proof.
  unfold sla_rows. intros H. apply in_flat_map in H.
  destruct H as (i & Hi & H).
  destruct (N.eqb_spec (SLA.incident_id s) (Incident.id i)) as [E|E];
    [|contradiction].
  apply in_map_iff in H. destruct H as (u & <- & Hu). simpl. auto.
Qed.

Lemma joined_rows_In (db : DB) (r : Row) :
  In r (joined_rows db) ->
  In (row_sla r) (slas db) /\ In (row_incident r) (incidents db)
  /\ SLA.incident_id (row_sla r) = Incident.id (row_incident r)
  /\ In (row_assignee r) (assignee_rows db (row_incident r)).
Proof.
  unfold joined_rows. intros H. apply in_flat_map in H.
  destruct H as (s & Hs & H). apply sla_rows_In in H.
  destruct H as (-> & H). auto.
Qed.

Lemma sla_rows_at_most_one (db : DB) (s : SLA.t) :
  NoDup (map User.id (users db)) ->
  NoDup (map Incident.id (incidents db)) ->
  (List.length (sla_rows db s) <= 1)%nat.
Proof.
  intros Hu Hi. unfold sla_rows.
  apply (flat_map_at_most_one Incident.id (SLA.incident_id s));
    [exact Hi| |].
  - intros i _ Hk.
    destruct (N.eqb_spec (SLA.incident_id s) (Incident.id i)) as [E|E];
      [exfalso; apply Hk; symmetry; exact E | reflexivity].
  - intros i _. destruct (N.eqb (SLA.incident_id s) (Incident.id i));
      simpl; [|lia].
    rewrite length_map. apply assignee_rows_at_most_one. exact Hu.
Qed.

(** Under the key constraints the join has at most one row per incident. *)
Lemma joined_rows_for_at_most_one (db : DB) (iid : UUID) :
  keys_ok db -> (List.length (rows_for iid (joined_rows db)) <= 1)%nat.
Proof.
  intros (Hu & Hi & _ & Hs). unfold rows_for, joined_rows.
  rewrite filter_flat_map.
  apply (flat_map_at_most_one SLA.incident_id iid); [exact Hs| |].
  - intros s _ Hk.
    destruct (filter _ (sla_rows db s)) as [|r l] eqn:E; [reflexivity|].
    exfalso. assert (Hr : In r (filter
      (fun r => N.eqb (Incident.id (row_incident r)) iid) (sla_rows db s)))
      by (rewrite E; left; reflexivity).
    apply filter_In in Hr. destruct Hr as [Hr Hp].
    apply sla_rows_In in Hr. destruct Hr as (_ & _ & Hid & _).
    apply N.eqb_eq in Hp. congruence.
  - intros s _. etransitivity; [apply length_filter_le|].
    apply sla_rows_at_most_one; assumption.
Qed.

Lemma rows_for_select_breached (db : DB) (now : datetime) (iid : UUID) :
  rows_for iid (select_breached db now)
  = filter (breach_where now) (rows_for iid (joined_rows db)).
Proof.
  unfold rows_for, select_breached.
  induction (joined_rows db) as [|r l IH]; simpl; [reflexivity|].
  destruct (breach_where now r) eqn:Eb;
    destruct (N.eqb (Incident.id (row_incident r)) iid) eqn:Ei;
    simpl; rewrite ?Eb, ?Ei, IH; reflexivity.
Qed.

Lemma select_breached_for_at_most_one (db : DB) (now : datetime) (iid : UUID) :
  keys_ok db ->
  (List.length (rows_for iid (select_breached db now)) <= 1)%nat.
Proof.
  intros H. rewrite rows_for_select_breached.
  etransitivity; [apply length_filter_le|].
  apply joined_rows_for_at_most_one. exact H.
Qed.

(** *** The loop and the flush *)

Lemma scan_rows_spec (env : Env) (now : datetime) (rows : list Row) :
  forall st,
    match scan_rows env now rows st with
    | Finished st' =>
        dirty st' = (dirty st ++ marked now rows)%list
        /\ outbox st' = (outbox st ++ notifications rows)%list
        /\ breaches_detected st'
           = (breaches_detected st + List.length rows)%nat
        /\ notifications_sent st'
           = (notifications_sent st + List.length (notifications rows))%nat
    | Raised st' =>
        exists emitted rest,
          notifications rows = (emitted ++ rest)%list
          /\ outbox st' = (outbox st ++ emitted)%list
    end.
Proof.
  induction rows as [|r rows IH]; intros st; simpl.
  - rewrite !app_nil_r. repeat split; lia.
  - destruct (notification_of r) as [n|] eqn:En.
    + destruct (delay_raises env (notifications_sent st)).
      * exists [], (n :: notifications rows). simpl.
        rewrite app_nil_r. split; reflexivity.
      * match goal with |- context [scan_rows env now rows ?st1] =>
          specialize (IH st1); destruct (scan_rows env now rows st1) end;
          simpl in IH.
        -- destruct IH as (Hd & Ho & Hb & Hn).
           rewrite Hd, Ho, Hb, Hn, <- !app_assoc. simpl.
           repeat split; lia.
        -- destruct IH as (emitted & rest & Hn & Ho).
           exists (n :: emitted), rest. rewrite Hn, Ho, <- app_assoc.
           split; reflexivity.
    + match goal with |- context [scan_rows env now rows ?st1] =>
        specialize (IH st1); destruct (scan_rows env now rows st1) end;
        simpl in IH.
      * destruct IH as (Hd & Ho & Hb & Hn).
        rewrite Hd, Ho, Hb, Hn, <- !app_assoc. simpl.
        repeat split; lia.
      * exact IH.
Qed.


(** When no call to the broker raises, the loop runs to its end. *)
Lemma scan_rows_no_failures (now : datetime) (rows : list Row) :
  forall st, exists st', scan_rows no_failures now rows st = Finished st'.
Proof.
  induction rows as [|r rows IH]; intros st; simpl.
  - exists st. reflexivity.
  - destruct (notification_of r); apply IH.
Qed.

(** What a run returns, case by case. *)
Lemma check_sla_breaches_spec (env : Env) (db : DB) (now : datetime) :
  let rows := select_breached db now in
  (exists out rest,
      check_sla_breaches env db now = (db, out, Error)
      /\ notifications rows = (out ++ rest)%list)
  \/ check_sla_breaches env db now
     = ({| users := users db; incidents := incidents db;
           slas := flush (marked now rows) (slas db) |},
        notifications rows,
        Success (List.length rows) (List.length (notifications rows))).
Proof.
  intros rows. unfold check_sla_breaches. fold rows.
  destruct (execute_raises env).
  - left. exists [], (notifications rows). split; reflexivity.
  - pose proof (scan_rows_spec env now rows initial_state) as H.
    destruct (scan_rows env now rows initial_state) as [st|st].
    + destruct H as (Hd & Ho & Hb & Hn). simpl in *.
      destruct (commit_raises env).
      * left. exists (outbox st), []. rewrite Ho, app_nil_r.
        split; reflexivity.
      * right. rewrite Hd, Ho, Hb, Hn. reflexivity.
    + destruct H as (emitted & rest & Hn & Ho). simpl in Ho.
      left. exists emitted, rest. rewrite Ho. split; [reflexivity|exact Hn].
Qed.

Lemma flush_map (objects rows : list SLA.t) :
  flush objects rows = map (touch objects) rows.
Proof.
  revert rows. induction objects as [|o objects IH]; intros rows; simpl.
  - symmetry. apply map_id.
  - unfold flush in *. simpl. rewrite IH. unfold update_sla_row.
    rewrite map_map. reflexivity.
Qed.

Lemma touch_stable (m : SLA.t) (objects : list SLA.t) :
  (forall s', In s' objects -> SLA.id s' = SLA.id m -> s' = m) ->
  touch objects m = m.
Proof.
  induction objects as [|a objects IH]; intros H; [reflexivity|].
  unfold touch in *. simpl.
  destruct (N.eqb_spec (SLA.id m) (SLA.id a)) as [E|E].
  - rewrite (H a (or_introl eq_refl) (eq_sym E)). apply IH.
    intros s' Hs'. apply H. right. exact Hs'.
  - apply IH. intros s' Hs'. apply H. right. exact Hs'.
Qed.

Lemma touch_cases (x m : SLA.t) (objects : list SLA.t) :
  SLA.id m = SLA.id x ->
  (forall s', In s' objects -> SLA.id s' = SLA.id x -> s' = m) ->
  (touch objects x = x
   /\ forall s', In s' objects -> SLA.id s' <> SLA.id x)
  \/ touch objects x = m.
Proof.
  intros Hm. induction objects as [|a objects IH]; intros H.
  - left. split; [reflexivity | intros s' []].
  - unfold touch in *. simpl.
    destruct (N.eqb_spec (SLA.id x) (SLA.id a)) as [E|E].
    + right. rewrite (H a (or_introl eq_refl) (eq_sym E)).
      apply (touch_stable m). intros s' Hs' Hid. apply H; [right; exact Hs'|].
      congruence.
    + destruct IH as [[IH1 IH2]|IH].
      * intros s' Hs'. apply H. right. exact Hs'.
      * left. split; [exact IH1|]. intros s' [<-|Hs']; [congruence|].
        apply IH2. exact Hs'.
      * right. exact IH.
Qed.

(** Under the primary key of [slas], the flush of a run leaves a row as it
    is or replaces it by its own marked version, and it replaces every row
    that was matched. *)
Lemma touch_marked (db : DB) (now : datetime) (rows : list Row) (x : SLA.t) :
  NoDup (map SLA.id (slas db)) ->
  (forall r, In r rows -> In (row_sla r) (slas db)) ->
  In x (slas db) ->
  (touch (marked now rows) x = x
   /\ forall r, In r rows -> row_sla r <> x)
  \/ touch (marked now rows) x = mark_breached now x.
Proof.
  intros Hnd Hrows Hx.
  destruct (touch_cases x (mark_breached now x) (marked now rows))
    as [[H1 H2]|H]; [reflexivity| | |].
  - intros s' Hs' Hid. unfold marked in Hs'. apply in_map_iff in Hs'.
    destruct Hs' as (r & <- & Hr). f_equal.
    apply (NoDup_key_inj SLA.id (slas db)); auto.
  - left. split; [exact H1|]. intros r Hr E.
    apply (H2 (mark_breached now (row_sla r))).
    + unfold marked.
      apply (in_map (fun r => mark_breached now (row_sla r))). exact Hr.
    + rewrite E. reflexivity.
  - right. exact H.
Qed.

Lemma select_breached_In (db : DB) (now : datetime) (r : Row) :
  In r (select_breached db now) ->
  In r (joined_rows db) /\ breach_where now r = true.
Proof. unfold select_breached. apply filter_In. Qed.

Lemma select_breached_sla_In (db : DB) (now : datetime) (r : Row) :
  In r (select_breached db now) -> In (row_sla r) (slas db).
Proof.
  intros H. apply select_breached_In in H. destruct H as [H _].
  apply joined_rows_In in H. tauto.
Qed.

Lemma touch_selected (db : DB) (now : datetime) (x : SLA.t) :
  NoDup (map SLA.id (slas db)) -> In x (slas db) ->
  (touch (marked now (select_breached db now)) x = x
   /\ forall r, In r (select_breached db now) -> row_sla r <> x)
  \/ touch (marked now (select_breached db now)) x = mark_breached now x.
Proof.
  intros Hnd Hx. apply (touch_marked db); [exact Hnd| |exact Hx].
  intros r. apply select_breached_sla_In.
Qed.

Lemma committed_In_marked (db : DB) (now : datetime) (r : Row) :
  keys_ok db -> In r (select_breached db now) ->
  In (mark_breached now (row_sla r)) (slas (committed db now)).
Proof.
  intros (_ & _ & Hnd & _) Hr. simpl. rewrite flush_map.
  pose proof (select_breached_sla_In db now r Hr) as Hin.
  apply in_map_iff. exists (row_sla r). split; [|exact Hin].
  destruct (touch_selected db now (row_sla r) Hnd Hin) as [[_ H]|H].
  - exfalso. exact (H r Hr eq_refl).
  - exact H.
Qed.

Lemma committed_slas_origin (db : DB) (now : datetime) (s' : SLA.t) :
  keys_ok db -> In s' (slas (committed db now)) ->
  exists x, In x (slas db)
    /\ ((s' = x /\ forall r, In r (select_breached db now) -> row_sla r <> x)
        \/ s' = mark_breached now x).
Proof.
  intros (_ & _ & Hnd & _) Hs'. simpl in Hs'. rewrite flush_map in Hs'.
  apply in_map_iff in Hs'. destruct Hs' as (x & <- & Hx).
  exists x. split; [exact Hx|].
  destruct (touch_selected db now x Hnd Hx) as [[H1 H2]|H].
  - left. split; [exact H1 | exact H2].
  - right. exact H.
Qed.

Lemma committed_keys_ok (db : DB) (now : datetime) :
  keys_ok db -> keys_ok (committed db now).
Proof.
  intros Hk. pose proof Hk as (Hu & Hi & Hs & Hsi).
  assert (Hpres : forall x, In x (slas db) ->
            SLA.id (touch (marked now (select_breached db now)) x) = SLA.id x
            /\ SLA.incident_id (touch (marked now (select_breached db now)) x)
               = SLA.incident_id x).
  { intros x Hx.
    destruct (touch_selected db now x Hs Hx) as [[H _]|H];
      rewrite H; split; reflexivity. }
  unfold keys_ok, committed. simpl. rewrite flush_map, !map_map.
  split; [exact Hu|]. split; [exact Hi|]. split.
  - erewrite map_ext_in; [exact Hs|]. intros x Hx. apply (Hpres x Hx).
  - erewrite map_ext_in; [exact Hsi|]. intros x Hx. apply (Hpres x Hx).
Qed.

(** *** Counting accepted calls *)

Lemma count_for_app (iid : UUID) (a b : list Intent) :
  count_for iid (a ++ b) = (count_for iid a + count_for iid b)%nat.
Proof. unfold count_for. rewrite filter_app, length_app. reflexivity. Qed.

Lemma count_for_notifications (iid : UUID) (rows : list Row) :
  count_for iid (notifications rows)
  = List.length (notifications (rows_for iid rows)).
Proof.
  unfold count_for, notifications, rows_for.
  induction rows as [|r rows IH]; simpl; [reflexivity|].
  rewrite filter_app, length_app, IH.
  destruct (N.eqb (Incident.id (row_incident r)) iid) eqn:E; simpl.
  - rewrite length_app. f_equal.
    unfold notification_of.
    destruct (row_assignee r) as [u|]; [|reflexivity].
    destruct (negb (String.eqb (User.email u) "")); [|reflexivity].
    simpl. rewrite E. reflexivity.
  - unfold notification_of.
    destruct (row_assignee r) as [u|]; [|reflexivity].
    destruct (negb (String.eqb (User.email u) "")); [|reflexivity].
    simpl. rewrite E. reflexivity.
Qed.

Lemma length_notifications_le (rows : list Row) :
  (List.length (notifications rows) <= List.length rows)%nat.
Proof.
  unfold notifications. induction rows as [|r rows IH]; simpl; [lia|].
  rewrite length_app. destruct (notification_of r); simpl; lia.
Qed.

Lemma count_for_run_le (env : Env) (db : DB) (now : datetime) (iid : UUID) :
  (count_for iid (snd (fst (check_sla_breaches env db now)))
   <= List.length (rows_for iid (select_breached db now)))%nat.
Proof.
  assert (Hall : (count_for iid (notifications (select_breached db now))
                  <= List.length (rows_for iid (select_breached db now)))%nat).
  { rewrite count_for_notifications. apply length_notifications_le. }
  destruct (check_sla_breaches_spec env db now)
    as [(out & rest & -> & Hn)| ->]; simpl.
  - rewrite Hn, count_for_app in Hall. lia.
  - exact Hall.
Qed.

(** An SLA matched by a run that committed is not matched again. *)
Lemma committed_excludes (db : DB) (now1 now2 : datetime) (iid : UUID) :
  keys_ok db ->
  rows_for iid (select_breached db now1) <> [] ->
  rows_for iid (select_breached (committed db now1) now2) = [].
Proof.
  intros Hk Hne.
  destruct (rows_for iid (select_breached db now1)) as [|r1 l1] eqn:E1;
    [congruence|].
  assert (Hr1 : In r1 (rows_for iid (select_breached db now1)))
    by (rewrite E1; left; reflexivity).
  apply filter_In in Hr1. destruct Hr1 as [Hr1 Hid1].
  apply N.eqb_eq in Hid1.
  destruct (rows_for iid (select_breached (committed db now1) now2))
    as [|r2 l2] eqn:E2; [reflexivity|]. exfalso.
  assert (Hr2 : In r2 (rows_for iid
                         (select_breached (committed db now1) now2)))
    by (rewrite E2; left; reflexivity).
  apply filter_In in Hr2. destruct Hr2 as [Hr2 Hid2].
  apply N.eqb_eq in Hid2.
  apply select_breached_In in Hr2. destruct Hr2 as [Hj2 Hw2].
  apply joined_rows_In in Hj2. destruct Hj2 as (Hs2 & _ & Hinc2 & _).
  pose proof (select_breached_In _ _ _ Hr1) as [Hj1 _].
  apply joined_rows_In in Hj1. destruct Hj1 as (Hs1 & _ & Hinc1 & _).
  destruct (committed_slas_origin db now1 (row_sla r2) Hk Hs2)
    as (x & Hx & [[Hsame Hnot]|Hmark]).
  - apply (Hnot r1 Hr1). destruct Hk as (_ & _ & _ & Hsi).
    apply (NoDup_key_inj SLA.incident_id (slas db)); auto.
    rewrite <- Hsame. congruence.
  - unfold breach_where in Hw2. rewrite Hmark in Hw2. simpl in Hw2.
    discriminate.
Qed.

(** *** The claims on the breach scan *)

Lemma success_inv (env : Env) (db db1 : DB) (now : datetime)
    (out : list Intent) (b n : nat) :
  check_sla_breaches env db now = (db1, out, Success b n) ->
  db1 = committed db now
  /\ out = notifications (select_breached db now)
  /\ b = List.length (select_breached db now)
  /\ n = List.length out.
Proof.
  intros H.
  destruct (check_sla_breaches_spec env db now)
    as [(out' & rest & H' & _)|H']; rewrite H' in H.
  - discriminate.
  - injection H as <- <- <- <-. repeat split.
Qed.

Ltac distinct_keys :=
  repeat split; simpl;
  repeat (constructor; [simpl; intuition discriminate|]);
  constructor.

Lemma keys_ok_db_two : keys_ok Examples.db_two.
Proof. distinct_keys. Qed.

(** C2: the code at the failing input.  In [db_two] two SLAs are overdue
    at time 100.  A first run in which the broker raises on the second call
    has already handed over the notification for incident 7, commits
    nothing and returns the database as it was; the run that follows on
    this unmodified database hands over a notification for incident 7
    again, so that the SLA of incident 7 has two BREACH notifications.
    The query of the scan guards against this with
    [SLA.breach_notified_at.is_(None)], but the marker it tests is stored
    only by the commit that follows the whole loop. *)
Lemma failed_run_notifies_twice :
  let out1 := [Examples.disk_intent] in
  let out2 := [Examples.disk_intent; Examples.net_intent] in
  check_sla_breaches Examples.broker_fails_on_second_call
    Examples.db_two 100 = (Examples.db_two, out1, Error)
  /\ check_sla_breaches no_failures Examples.db_two 100
     = (committed Examples.db_two 100, out2, Success 2 2)
  /\ count_for (SLA.incident_id Examples.disk_sla) (out1 ++ out2) = 2%nat.
Proof.
  simpl. split; [reflexivity|]. split; reflexivity.
Qed.

(** X25.  The guard of the query at work.  In a database that satisfies the key
    constraints, when the first of two successive runs returns status
    success, the two runs together hand over at most one BREACH
    notification for each SLA, whatever happens in the second run: the
    first run has stored every matched SLA with [breach_notified_at] set,
    and the query of the second run only returns SLAs whose
    [breach_notified_at] is unset. *)
Theorem breach_notified_at_most_once (env1 env2 : Env) (db db1 : DB)
    (now1 now2 : datetime) (out1 : list Intent) (b n : nat) (s : SLA.t) :
  keys_ok db ->
  check_sla_breaches env1 db now1 = (db1, out1, Success b n) ->
  (count_for (SLA.incident_id s)
     (out1 ++ snd (fst (check_sla_breaches env2 db1 now2))) <= 1)%nat
  /\ (forall r, In r (select_breached db now1) ->
        In (mark_breached now1 (row_sla r)) (slas db1)
        /\ SLA.breach_notified_at (mark_breached now1 (row_sla r))
           = Some now1)
  /\ (forall r, In r (select_breached db1 now2) ->
        SLA.breach_notified_at (row_sla r) = None).
Proof.
  intros Hk Hrun. apply success_inv in Hrun.
  destruct Hrun as (-> & -> & _ & _). split; [|split].
  - set (iid := SLA.incident_id s). rewrite count_for_app.
    pose proof (count_for_run_le env2 (committed db now1) now2 iid) as H2.
    pose proof (select_breached_for_at_most_one db now1 iid Hk) as L1.
    pose proof (select_breached_for_at_most_one (committed db now1) now2 iid
                  (committed_keys_ok db now1 Hk)) as L2.
    assert (H1 : (count_for iid (notifications (select_breached db now1))
                  <= List.length (rows_for iid (select_breached db now1)))%nat).
    { rewrite count_for_notifications. apply length_notifications_le. }
    destruct (rows_for iid (select_breached db now1)) as [|r1 l1] eqn:E1.
    + simpl in H1. lia.
    + rewrite (committed_excludes db now1 now2 iid Hk) in H2
        by (rewrite E1; discriminate).
      simpl in H2. lia.
  - intros r Hr. split; [|reflexivity].
    apply committed_In_marked; assumption.
  - intros r Hr. apply select_breached_In in Hr. destruct Hr as [_ Hw].
    unfold breach_where in Hw. apply andb_true_iff in Hw.
    destruct Hw as [_ Hw]. apply SLAFacts.is_none_true. exact Hw.
Qed.

(** X25 in [db_two]: a run at time 100 that returns status success,
    followed by a run at time 200, which finds no SLA left to notify. *)
Lemma breach_notified_at_most_once_witness :
  (count_for 7%N
     (notifications (select_breached Examples.db_two 100%Z)
      ++ snd (fst (check_sla_breaches Examples.broker_fails_on_second_call
                     (committed Examples.db_two 100%Z) 200%Z))) <= 1)%nat.
Proof.
  apply (breach_notified_at_most_once no_failures
           Examples.broker_fails_on_second_call Examples.db_two
           (committed Examples.db_two 100) 100 200
           (notifications (select_breached Examples.db_two 100)) 2 2
           Examples.disk_sla keys_ok_db_two eq_refl).
Defined.



(** C5: the code at the failing input.  The incident of [db_deleted]
    carries a soft-delete marker, so the service no longer finds it; the
    breach scan at time 100 still selects its SLA, stores it as BREACHED
    and hands over a BREACH notification for it. *)
Theorem soft_deleted_incident_is_scanned :
  IncidentService.get_incident Examples.db_deleted 7%N = inr None
  /\ exists db',
       check_sla_breaches no_failures Examples.db_deleted 100
       = (db', [Examples.disk_intent], Success 1 1)
       /\ slas db' = [mark_breached 100 Examples.disk_sla].
Proof.
  split; [reflexivity|]. eexists. split; reflexivity.
Qed.

(** C6, as stated, fails.  The overdue incident of [db_blank_email] has an
    assignee, whose email is the empty string; the run records the breach
    and hands over no notification. *)
Lemma blank_email_assignee_not_notified :
  exists db',
    check_sla_breaches no_failures Examples.db_blank_email 100
    = (db', [], Success 1 0)
    /\ slas db' = [mark_breached 100 Examples.printer_sla]
    /\ Incident.assignee_id Examples.printer_incident
       = Some (User.id Examples.carol)
    /\ In Examples.carol (users Examples.db_blank_email).
Proof.
  eexists. split; [reflexivity|]. split; [reflexivity|].
  split; [reflexivity | left; reflexivity].
Qed.

(** C6, amended.  In a database that satisfies the key constraints and in
    a run that completes, for every row matched by the breach query: the
    SLA is stored with status BREACHED and [breach_notified_at = now]; the
    row's assignee, if any, is the user the incident is assigned to; when
    the assignee exists and has a non-empty email, exactly one BREACH
    notification is handed over for the incident, addressed to that email,
    with breach type Response when [response_at] is unset and Resolution
    otherwise; when there is no assignee, or the assignee's email is
    empty, the breach is recorded all the same and no notification is
    handed over. *)
Theorem breach_pass_per_match (env : Env) (db db1 : DB) (now : datetime)
    (out : list Intent) (b n : nat) (r : Row) :
  keys_ok db ->
  check_sla_breaches env db now = (db1, out, Success b n) ->
  In r (select_breached db now) ->
  In (mark_breached now (row_sla r)) (slas db1)
  /\ SLA.status (mark_breached now (row_sla r)) = BREACHED
  /\ SLA.breach_notified_at (mark_breached now (row_sla r)) = Some now
  /\ (forall u, row_assignee r = Some u ->
        In u (users db)
        /\ Incident.assignee_id (row_incident r) = Some (User.id u))
  /\ (forall u, row_assignee r = Some u -> User.email u <> ""%string ->
        count_for (Incident.id (row_incident r)) out = 1%nat
        /\ In {| incident_id := Incident.id (row_incident r);
                 assignee_email := User.email u;
                 breach_type := match SLA.response_at (row_sla r) with
                                | None => "Response"
                                | Some _ => "Resolution"
                                end |} out)
  /\ (row_assignee r = None
      \/ (exists u, row_assignee r = Some u /\ User.email u = ""%string) ->
      count_for (Incident.id (row_incident r)) out = 0%nat).
Proof.
  intros Hk Hrun Hr. apply success_inv in Hrun.
  destruct Hrun as (-> & -> & _ & _).
  assert (Hrows : rows_for (Incident.id (row_incident r))
                    (select_breached db now) = [r]).
  { apply at_most_one_In.
    - apply select_breached_for_at_most_one. exact Hk.
    - apply filter_In. split; [exact Hr | apply N.eqb_refl]. }
  split; [apply committed_In_marked; assumption|].
  split; [reflexivity|]. split; [reflexivity|]. split; [|split].
  - intros u Hu. apply select_breached_In in Hr. destruct Hr as [Hj _].
    apply joined_rows_In in Hj. destruct Hj as (_ & _ & _ & Ha).
    rewrite Hu in Ha. apply assignee_rows_In in Ha. exact Ha.
  - intros u Hu He. apply String.eqb_neq in He.
    assert (Hn : notification_of r
                 = Some {| incident_id := Incident.id (row_incident r);
                           assignee_email := User.email u;
                           breach_type :=
                             match SLA.response_at (row_sla r) with
                             | None => "Response"
                             | Some _ => "Resolution"
                             end |}).
    { unfold notification_of. rewrite Hu, He. simpl.
      unfold breach_type_of. destruct (SLA.response_at (row_sla r));
        reflexivity. }
    split.
    + rewrite count_for_notifications, Hrows. simpl. rewrite Hn. reflexivity.
    + unfold notifications. apply in_flat_map. exists r.
      split; [exact Hr|]. rewrite Hn. left. reflexivity.
  - intros H. rewrite count_for_notifications, Hrows. simpl.
    unfold notification_of.
    destruct H as [->|(u & -> & ->)]; reflexivity.
Qed.

(** The amended C6 at the row of incident 8 in [db_two]. *)
Lemma breach_pass_per_match_witness :
  In (mark_breached 100 Examples.net_sla)
     (slas (committed Examples.db_two 100))
  /\ In Examples.net_intent
        (notifications (select_breached Examples.db_two 100)).
Proof.
  destruct (breach_pass_per_match no_failures Examples.db_two
              (committed Examples.db_two 100) 100
              (notifications (select_breached Examples.db_two 100)) 2 2
              (Examples.net_sla, Examples.net_incident, Some Examples.bob)
              keys_ok_db_two eq_refl (or_intror (or_introl eq_refl)))
    as (H1 & _ & _ & _ & H2 & _).
  split; [exact H1|].
  apply (H2 Examples.bob eq_refl). discriminate.
Defined.

End SLACheckerFacts.

(** ** Further properties of the incident service *)

Module ServiceExtras.
Import IncidentService.

(** *** Lookup after an update by primary key *)

Lemma get_incident_None (db : DB) (iid : UUID) :
  get_incident db iid = inr None <->
  (forall i, In i (incidents db) -> Incident.id i = iid ->
             Incident.deleted_at i <> None).
Proof.
  unfold get_incident. split.
  - intros H i Hin Hid Hdel.
    destruct (filter _ (incidents db)) as [|x [|y l]] eqn:E; try discriminate.
    assert (Hi : In i []); [|contradiction].
    rewrite <- E. apply filter_In. split; [exact Hin|].
    rewrite Hid, N.eqb_refl, Hdel. reflexivity.
  - intros H.
    destruct (filter _ (incidents db)) as [|x l] eqn:E; [reflexivity|].
    exfalso. assert (Hx : In x (x :: l)) by (left; reflexivity).
    rewrite <- E in Hx. apply filter_In in Hx. destruct Hx as [Hin Hp].
    apply andb_true_iff in Hp. destruct Hp as [Hid Hdel].
    apply N.eqb_eq in Hid. apply SLAFacts.is_none_true in Hdel.
    exact (H x Hin Hid Hdel).
Qed.

Lemma update_incident_row_length (i' : Incident.t) (rows : list Incident.t) :
  List.length (update_incident_row i' rows) = List.length rows.
Proof. unfold update_incident_row. apply length_map. Qed.

Lemma update_incident_row_ids (i' : Incident.t) (rows : list Incident.t) :
  map Incident.id (update_incident_row i' rows) = map Incident.id rows.
Proof.
  unfold update_incident_row. rewrite map_map. apply map_ext.
  intros x. destruct (N.eqb_spec (Incident.id x) (Incident.id i'));
    [symmetry; assumption | reflexivity].
Qed.

Lemma update_incident_row_In (i' x : Incident.t) (rows : list Incident.t) :
  In x (update_incident_row i' rows) ->
  x = i' \/ (In x rows /\ Incident.id x <> Incident.id i').
Proof.
  unfold update_incident_row. intros H. apply in_map_iff in H.
  destruct H as (y & Hy & Hin).
  destruct (N.eqb_spec (Incident.id y) (Incident.id i')) as [E|E].
  - left. symmetry. exact Hy.
  - right. subst x. split; assumption.
Qed.

(** With unique incident ids, the row written by an update is the one
    found afterwards, provided it is not soft-deleted. *)
Lemma get_incident_after_update (db : DB) (i i' : Incident.t)
    (us : list User.t) (ss : list SLA.t) :
  NoDup (map Incident.id (incidents db)) ->
  In i (incidents db) ->
  Incident.id i' = Incident.id i ->
  Incident.deleted_at i' = None ->
  get_incident
    {| users := us;
       incidents := update_incident_row i' (incidents db);
       slas := ss |} (Incident.id i)
  = inr (Some i').
Proof.
  intros Hnd Hin Hid Hdel. unfold get_incident. simpl.
  assert (H : filter
                (fun x => (N.eqb (Incident.id x) (Incident.id i)
                           && is_none (Incident.deleted_at x))%bool)
                (update_incident_row i' (incidents db)) = [i']);
    [|rewrite H; reflexivity].
  induction (incidents db) as [|a rows IH]; [contradiction|].
  simpl in Hnd. inversion Hnd as [|? ? Hnotin Hnd']; subst.
  simpl. destruct Hin as [->|Hin].
  - rewrite <- Hid, N.eqb_refl, N.eqb_refl, Hdel. simpl. f_equal.
    assert (Hall : forall x, In x (update_incident_row i' rows) ->
                     Incident.id x <> Incident.id i').
    { intros x Hx Hc. apply Hnotin. rewrite <- Hid, <- Hc.
      rewrite <- (update_incident_row_ids i' rows). apply in_map. exact Hx. }
    clear - Hall. induction (update_incident_row i' rows) as [|x l IHl];
      [reflexivity|]. simpl.
    destruct (N.eqb_spec (Incident.id x) (Incident.id i')) as [E|E].
    + exfalso. apply (Hall x); [left; reflexivity | exact E].
    + simpl. apply IHl. intros y Hy. apply Hall. right. exact Hy.
  - assert (Ha : Incident.id a <> Incident.id i').
    { intros Hc. apply Hnotin. rewrite Hc, Hid. apply in_map. exact Hin. }
    destruct (N.eqb_spec (Incident.id a) (Incident.id i')) as [E|_];
      [contradiction|].
    destruct (N.eqb_spec (Incident.id a) (Incident.id i)) as [E|_];
      [rewrite <- Hid in E; contradiction|].
    simpl. apply IH; assumption.
Qed.

(** *** Soft delete *)

(** X1.  After a successful [delete_incident] the incident is no longer
    found by [get_incident]; its row is still in the table, now with the
    soft-delete marker, no row was removed, and the users and SLA tables
    are untouched. *)
Theorem delete_then_get (db db' : DB) (iid : UUID) (now : datetime) :
  delete_incident db iid now = inr (db', true) ->
  get_incident db' iid = inr None
  /\ (exists i, get_incident db iid = inr (Some i)
                /\ In (Incident.set_deleted_at (Some now) i) (incidents db'))
  /\ List.length (incidents db') = List.length (incidents db)
  /\ slas db' = slas db
  /\ users db' = users db.
Proof.
  unfold delete_incident. intros H.
  destruct (get_incident db iid) as [e|[i|]] eqn:Hget; try discriminate.
  injection H as <-. simpl.
  pose proof (IncidentServiceFacts.get_incident_Some db iid i Hget)
    as (Hin & Hid & _).
  split; [|split; [|split; [|split]]].
  - apply get_incident_None. simpl. intros x Hx Hxid.
    apply update_incident_row_In in Hx. destruct Hx as [->|[_ Hne]].
    + simpl. discriminate.
    + exfalso. apply Hne. simpl. congruence.
  - exists i. split; [reflexivity|].
    apply IncidentServiceFacts.In_update_incident_row with (i := i);
      [exact Hin | reflexivity].
  - apply update_incident_row_length.
  - reflexivity.
  - reflexivity.
Qed.

Lemma delete_then_get_witness :
  get_incident
    {| users := users Examples.db_disk;
       incidents := update_incident_row
                      (Incident.set_deleted_at (Some 15)
                         Examples.disk_incident)
                      (incidents Examples.db_disk);
       slas := slas Examples.db_disk |} 7%N = inr None.
Proof.
  apply (delete_then_get Examples.db_disk _ 7%N 15 eq_refl).
Defined.

(** X2.  After a successful [delete_incident], every writing operation of
    the service on the same id reports "not found" ([None], or [False]
    for a second delete) and leaves the database exactly as the delete
    left it; in particular the marker keeps the time of the first
    delete. *)
Theorem deleted_incident_is_frozen (db db' : DB) (iid : UUID)
    (now now' : datetime) (st : IncidentStatus) (a : UUID)
    (data : IncidentUpdate.t) :
  delete_incident db iid now = inr (db', true) ->
  update_status db' iid st now' = inr (db', None)
  /\ assign_incident db' iid a = inr (db', None)
  /\ update_incident db' iid data = inr (db', None)
  /\ delete_incident db' iid now' = inr (db', false).
Proof.
  intros H.
  assert (Hnone : get_incident db' iid = inr None).
  { unfold delete_incident in H.
    destruct (get_incident db iid) as [e|[i|]] eqn:Hget; try discriminate.
    injection H as <-. apply get_incident_None. simpl. intros x Hx Hxid.
    apply update_incident_row_In in Hx. destruct Hx as [->|[_ Hne]].
    - simpl. discriminate.
    - exfalso. apply Hne. simpl.
      apply IncidentServiceFacts.get_incident_Some in Hget.
      destruct Hget as (_ & Hid & _). congruence. }
  unfold update_status, assign_incident, update_incident, delete_incident.
  rewrite Hnone. repeat split.
Qed.

Lemma deleted_incident_is_frozen_witness :
  exists db',
    delete_incident Examples.db_disk 7%N 15 = inr (db', true)
    /\ update_status db' 7%N RESOLVED 40 = inr (db', None)
    /\ delete_incident db' 7%N 40 = inr (db', false).
Proof.
  eexists. split; [reflexivity|].
  destruct (deleted_incident_is_frozen Examples.db_disk _ 7%N 15 40
              RESOLVED 2%N Examples.triage eq_refl) as (H1 & _ & _ & H4).
  split; assumption.
Defined.

(** *** Status changes *)

(** One call of [update_status] on an incident that is found. *)
Lemma update_status_found (db : DB) (iid : UUID) (st : IncidentStatus)
    (now : datetime) (i : Incident.t) :
  get_incident db iid = inr (Some i) ->
  exists i' ss,
    update_status db iid st now
    = inr ({| users := users db;
              incidents := update_incident_row i' (incidents db);
              slas := ss |}, Some i')
    /\ Incident.id i' = Incident.id i
    /\ Incident.deleted_at i' = None
    /\ Incident.status i' = st
    /\ Incident.resolved_at i'
       = match Incident.resolved_at i with
         | Some t => Some t
         | None => if IncidentStatus_eqb st RESOLVED then Some now else None
         end
    /\ Incident.closed_at i'
       = match Incident.closed_at i with
         | Some t => Some t
         | None => if IncidentStatus_eqb st CLOSED then Some now else None
         end.
Proof.
  intros Hget. unfold update_status. rewrite Hget.
  apply IncidentServiceFacts.get_incident_Some in Hget.
  destruct Hget as (_ & _ & Hdel).
  destruct (Incident.resolved_at i) as [tr|] eqn:Er;
    destruct (Incident.closed_at i) as [tc|] eqn:Ec;
    destruct st; simpl; rewrite ?Er, ?Ec; simpl; rewrite ?Er, ?Ec; simpl;
    do 2 eexists; (split; [reflexivity|]); simpl;
    rewrite ?Er, ?Ec, ?Hdel; repeat split.
Qed.

Lemma last_cons_default {A : Type} (l : list A) (a d : A) :
  last (a :: l) d = last l a.
Proof.
  revert a d. induction l as [|b l IH]; intros a d; [reflexivity|].
  change (last (a :: b :: l) d) with (last (b :: l) d).
  rewrite (IH b d), (IH b a). reflexivity.
Qed.

(** X3.  With unique incident ids, whatever list of status changes is
    sent for a live incident, every call succeeds and at the end the
    incident has the status asked for last, [resolved_at] is the value it
    had before if it was set, and else the time of the first request for
    RESOLVED (unset if there was none); [closed_at] likewise for CLOSED.
    So the two timestamps are written once and survive a reopening. *)
Theorem resolved_at_written_once (db : DB) (iid : UUID)
    (requests : list (IncidentStatus * datetime)) (i : Incident.t) :
  NoDup (map Incident.id (incidents db)) ->
  get_incident db iid = inr (Some i) ->
  exists db' i',
    update_status_many db iid requests = inr db'
    /\ get_incident db' iid = inr (Some i')
    /\ Incident.status i' = last (map fst requests) (Incident.status i)
    /\ Incident.resolved_at i'
       = match Incident.resolved_at i with
         | Some t => Some t
         | None => first_request RESOLVED requests
         end
    /\ Incident.closed_at i'
       = match Incident.closed_at i with
         | Some t => Some t
         | None => first_request CLOSED requests
         end.
Proof.
  revert db i. induction requests as [|[st now] rest IH]; intros db i Hnd Hget.
  - exists db, i. simpl. repeat split; try assumption;
      [destruct (Incident.resolved_at i) | destruct (Incident.closed_at i)];
      reflexivity.
  - destruct (update_status_found db iid st now i Hget)
      as (i1 & ss & Hrun & Hid & Hdel & Hst & Hres & Hclo).
    pose proof (IncidentServiceFacts.get_incident_Some db iid i Hget)
      as (Hin & Hiid & _).
    assert (Hget1 : get_incident
                      {| users := users db;
                         incidents := update_incident_row i1 (incidents db);
                         slas := ss |} iid = inr (Some i1)).
    { rewrite <- Hiid. apply get_incident_after_update; assumption. }
    destruct (IH {| users := users db;
                    incidents := update_incident_row i1 (incidents db);
                    slas := ss |} i1)
      as (db' & i' & Hmany & Hget' & Hst' & Hres' & Hclo');
      [simpl; rewrite update_incident_row_ids; exact Hnd | exact Hget1 |].
    exists db', i'. simpl. rewrite Hrun.
    split; [exact Hmany|]. split; [exact Hget'|]. split; [|split].
    + rewrite Hst', Hst. symmetry. apply last_cons_default.
    + rewrite Hres', Hres. unfold first_request. simpl.
      destruct (Incident.resolved_at i); [reflexivity|].
      destruct (IncidentStatus_eqb st RESOLVED); reflexivity.
    + rewrite Hclo', Hclo. unfold first_request. simpl.
      destruct (Incident.closed_at i); [reflexivity|].
      destruct (IncidentStatus_eqb st CLOSED); reflexivity.
Qed.

Lemma resolved_at_written_once_witness :
  exists db' i',
    update_status_many Examples.db_disk 7%N
      [(RESOLVED, 30); (OPEN, 40); (RESOLVED, 50); (CLOSED, 60)] = inr db'
    /\ get_incident db' 7%N = inr (Some i')
    /\ Incident.status i' = CLOSED
    /\ Incident.resolved_at i' = Some 30
    /\ Incident.closed_at i' = Some 60.
Proof.
  apply (resolved_at_written_once Examples.db_disk 7%N
           [(RESOLVED, 30); (OPEN, 40); (RESOLVED, 50); (CLOSED, 60)]
           Examples.disk_incident).
  - repeat constructor. simpl. intuition.
  - reflexivity.
Defined.

(** *** Assignment *)

Lemma assign_incident_found (db : DB) (iid a : UUID) (i : Incident.t) :
  get_incident db iid = inr (Some i) ->
  user_exists db a = true ->
  let i' := Incident.set_assignee_id (Some a) i in
  let i' := if IncidentStatus_eqb (Incident.status i) OPEN
            then Incident.set_status IN_PROGRESS i' else i' in
  assign_incident db iid a
  = inr ({| users := users db;
            incidents := update_incident_row i' (incidents db);
            slas := slas db |}, Some i').
Proof.
  intros Hget Hu. unfold assign_incident. rewrite Hget. simpl. rewrite Hu.
  reflexivity.
Qed.

(** X4.  With unique incident ids, assigning a live incident to an
    existing user and then re-assigning it to another existing user both
    succeed.  The first assignment moves an OPEN incident to IN_PROGRESS
    and leaves any other status alone, so the incident is never OPEN
    afterwards; the re-assignment changes the assignee and nothing else.
    Neither touches [resolved_at] or the SLA table.  An assignment to an
    id that is not a user is refused. *)
Theorem assign_then_reassign (db : DB) (iid a b : UUID) (i : Incident.t) :
  NoDup (map Incident.id (incidents db)) ->
  get_incident db iid = inr (Some i) ->
  user_exists db a = true ->
  user_exists db b = true ->
  (exists db1 i1 db2,
      assign_incident db iid a = inr (db1, Some i1)
      /\ Incident.status i1
         = (if IncidentStatus_eqb (Incident.status i) OPEN
            then IN_PROGRESS else Incident.status i)
      /\ Incident.status i1 <> OPEN
      /\ Incident.assignee_id i1 = Some a
      /\ Incident.resolved_at i1 = Incident.resolved_at i
      /\ assign_incident db1 iid b
         = inr (db2, Some (Incident.set_assignee_id (Some b) i1))
      /\ slas db2 = slas db)
  /\ (forall c, user_exists db c = false ->
        assign_incident db iid c = inl IntegrityError).
Proof.
  intros Hnd Hget Ha Hb. split.
  - pose proof (assign_incident_found db iid a i Hget Ha) as H1.
    cbv zeta in H1.
    pose proof (IncidentServiceFacts.get_incident_Some db iid i Hget)
      as (Hin & Hiid & Hdel).
    match type of H1 with _ = inr (?d, Some ?x) =>
      set (i1 := x) in *; set (db1 := d) in * end.
    assert (Hid1 : Incident.id i1 = Incident.id i)
      by (unfold i1; destruct (IncidentStatus_eqb _ _); reflexivity).
    assert (Hdel1 : Incident.deleted_at i1 = None)
      by (unfold i1; destruct (IncidentStatus_eqb _ _); exact Hdel).
    assert (Hst1 : Incident.status i1
                   = (if IncidentStatus_eqb (Incident.status i) OPEN
                      then IN_PROGRESS else Incident.status i))
      by (unfold i1; destruct (IncidentStatus_eqb _ _); reflexivity).
    assert (Hne : Incident.status i1 <> OPEN).
    { rewrite Hst1. destruct (Incident.status i); simpl; discriminate. }
    assert (Hget1 : get_incident db1 iid = inr (Some i1)).
    { unfold db1. rewrite <- Hiid.
      apply get_incident_after_update; assumption. }
    pose proof (assign_incident_found db1 iid b i1 Hget1 Hb) as H2.
    cbv zeta in H2.
    replace (IncidentStatus_eqb (Incident.status i1) OPEN) with false in H2
      by (destruct (Incident.status i1); try reflexivity; congruence).
    eexists db1, i1, _. split; [exact H1|]. split; [exact Hst1|].
    split; [exact Hne|].
    split; [unfold i1; destruct (IncidentStatus_eqb _ _); reflexivity|].
    split; [unfold i1; destruct (IncidentStatus_eqb _ _); reflexivity|].
    split; [exact H2 | reflexivity].
  - intros c Hc. unfold assign_incident. rewrite Hget. simpl. rewrite Hc.
    reflexivity.
Qed.

Lemma assign_then_reassign_witness :
  exists db1 i1 db2,
    assign_incident Examples.db_two 7%N 3%N = inr (db1, Some i1)
    /\ Incident.assignee_id i1 = Some 3%N
    /\ assign_incident db1 7%N 2%N
       = inr (db2, Some (Incident.set_assignee_id (Some 2%N) i1))
    /\ assign_incident Examples.db_two 7%N 99%N = inl IntegrityError.
Proof.
  destruct (assign_then_reassign Examples.db_two 7%N 3%N 2%N
              Examples.disk_incident)
    as [(db1 & i1 & db2 & H1 & _ & _ & Ha & _ & H2 & _) Hbad];
    [repeat constructor; simpl; intuition discriminate
    | reflexivity | reflexivity | reflexivity |].
  exists db1, i1, db2. split; [exact H1|]. split; [exact Ha|].
  split; [exact H2|]. apply Hbad. reflexivity.
Defined.

(** *** Field edits *)

(** X5.  [update_incident] never runs the resolution logic and never
    touches an SLA: whatever fields are sent, a successful call leaves
    the SLA and users tables, the incident's id, reporter, [resolved_at],
    [closed_at] and soft-delete marker as they were, and stores exactly
    the status and priority that were sent.  So a status set to RESOLVED
    through this path leaves [resolved_at] unset and the SLA not MET, and
    a priority change leaves the SLA deadlines as they were. *)
Theorem update_incident_frame (db db' : DB) (iid : UUID)
    (data : IncidentUpdate.t) (i i' : Incident.t) :
  get_incident db iid = inr (Some i) ->
  update_incident db iid data = inr (db', Some i') ->
  slas db' = slas db
  /\ users db' = users db
  /\ incident_sla db' i' = incident_sla db i
  /\ Incident.id i' = Incident.id i
  /\ Incident.reporter_id i' = Incident.reporter_id i
  /\ Incident.resolved_at i' = Incident.resolved_at i
  /\ Incident.closed_at i' = Incident.closed_at i
  /\ Incident.deleted_at i' = Incident.deleted_at i
  /\ (forall st, IncidentUpdate.status data = Some (Some st) ->
        Incident.status i' = st)
  /\ (IncidentUpdate.status data = None ->
        Incident.status i' = Incident.status i)
  /\ (forall p, IncidentUpdate.priority data = Some (Some p) ->
        Incident.priority i' = p).
Proof.
  intros Hget H. unfold update_incident in H. rewrite Hget in H.
  destruct data as [t d s p a]. simpl in H.
  destruct t as [[t|]|], d as [[d|]|], s as [[s|]|], p as [[p|]|];
    simpl in H; try discriminate;
    destruct a as [[a|]|]; simpl in H;
    try (destruct (user_exists db a)); try discriminate;
    injection H as <- <-; unfold incident_sla; simpl;
    repeat split; intros; congruence.
Qed.

Lemma update_incident_frame_witness :
  exists db' i',
    update_incident Examples.db_disk 7%N Examples.triage
    = inr (db', Some i')
    /\ Incident.status i' = RESOLVED
    /\ Incident.resolved_at i' = None
    /\ slas db' = slas Examples.db_disk.
Proof.
  do 2 eexists. split; [reflexivity|].
  destruct (update_incident_frame Examples.db_disk _ 7%N Examples.triage
              Examples.disk_incident _ eq_refl eq_refl)
    as (Hs & _ & _ & _ & _ & Hr & _ & _ & Hst & _).
  split; [apply Hst; reflexivity|]. split; [exact Hr | exact Hs].
Defined.

(** X6.  For a live incident, [update_incident] fails (with the
    integrity error of the commit, and nothing stored) exactly when a
    required field (title, description, status, priority) was sent as
    null or the assignee sent is not a user; sending the assignee as null
    is accepted and unassigns the incident. *)
Theorem update_incident_refusals (db : DB) (iid : UUID)
    (data : IncidentUpdate.t) (i : Incident.t) :
  get_incident db iid = inr (Some i) ->
  (update_incident db iid data = inl IntegrityError <->
   IncidentUpdate.title data = Some None
   \/ IncidentUpdate.description data = Some None
   \/ IncidentUpdate.status data = Some None
   \/ IncidentUpdate.priority data = Some None
   \/ exists a, IncidentUpdate.assignee_id data = Some (Some a)
                /\ user_exists db a = false)
  /\ (IncidentUpdate.assignee_id data = Some None ->
      forall db' i', update_incident db iid data = inr (db', Some i') ->
                     Incident.assignee_id i' = None).
Proof.
  intros Hget. unfold update_incident. rewrite Hget.
  destruct data as [t d s p a]. simpl. split.
  - destruct t as [[t|]|], d as [[d|]|], s as [[s|]|], p as [[p|]|],
      a as [[a|]|]; simpl;
      try (destruct (user_exists db a) eqn:Ea); simpl;
      (split;
       [ intros H; try discriminate;
         first [ left; reflexivity
               | right; left; reflexivity
               | do 2 right; left; reflexivity
               | do 3 right; left; reflexivity
               | do 4 right; exists a; split; [reflexivity | exact Ea] ]
       | intros [H|[H|[H|[H|(a0 & H & Hu)]]]];
         try discriminate; try reflexivity;
         injection H as <-; congruence ]).
  - intros -> db' i' H.
    destruct t as [[t|]|], d as [[d|]|], s as [[s|]|], p as [[p|]|];
      simpl in H; try discriminate; injection H as <- <-; reflexivity.
Qed.

Lemma update_incident_refusals_witness :
  update_incident Examples.db_disk 7%N
    {| IncidentUpdate.title := Some None;
       IncidentUpdate.description := None;
       IncidentUpdate.status := None;
       IncidentUpdate.priority := None;
       IncidentUpdate.assignee_id := None |} = inl IntegrityError.
Proof.
  apply (proj1 (update_incident_refusals Examples.db_disk 7%N _
                  Examples.disk_incident eq_refl)).
  left. reflexivity.
Defined.

(** *** Statistics *)

Lemma length_filter_split {A : Type} (p : A -> bool) (l : list A) :
  (List.length (filter p l) + List.length (filter (fun x => negb (p x)) l)
   = List.length l)%nat.
Proof.
  induction l as [|a l IH]; simpl; [reflexivity|].
  destruct (p a); simpl; lia.
Qed.

Lemma length_by_status (l : list Incident.t) :
  let count s :=
    List.length (filter (fun i => IncidentStatus_eqb (Incident.status i) s) l)
  in (List.length l
      = count OPEN + count IN_PROGRESS + count RESOLVED + count CLOSED)%nat.
Proof.
  induction l as [|a l IH]; simpl in *; [reflexivity|].
  destruct (Incident.status a); simpl; lia.
Qed.

Lemma length_critical_high (l : list Incident.t) :
  (List.length
     (filter (fun i => IncidentPriority_eqb (Incident.priority i) CRITICAL) l)
   + List.length
       (filter (fun i => IncidentPriority_eqb (Incident.priority i) HIGH) l)
   <= List.length l)%nat.
Proof.
  induction l as [|a l IH]; simpl; [lia|].
  destruct (Incident.priority a); simpl; lia.
Qed.

(** X7.  The statistics count live incidents only: the total over all
    users plus the number of soft-deleted rows is the size of the table.
    The three reported status counts add up to the total less the CLOSED
    incidents, which the dictionary does not report; the two reported
    priority counts never exceed the total; and the total for one user
    never exceeds the total over all users. *)
Theorem stats_account (db : DB) (user_id : option UUID) :
  let s := get_incident_stats db user_id in
  let closed :=
    List.length
      (filter (fun i => IncidentStatus_eqb (Incident.status i) CLOSED)
              (stats_base_query db user_id)) in
  let deleted :=
    List.length
      (filter (fun i => is_set (Incident.deleted_at i)) (incidents db)) in
  (total s
   = by_status_open s + by_status_in_progress s + by_status_resolved s
     + closed)%nat
  /\ (by_priority_critical s + by_priority_high s <= total s)%nat
  /\ (total s <= total (get_incident_stats db None))%nat
  /\ (total (get_incident_stats db None) + deleted
      = List.length (incidents db))%nat.
Proof.
  cbv zeta. unfold get_incident_stats. simpl.
  split; [apply length_by_status|]. split; [apply length_critical_high|].
  split.
  - destruct user_id as [uid|]; simpl; [|lia].
    apply SLACheckerFacts.length_filter_le.
  - etransitivity;
      [|apply (length_filter_split
                 (fun i => is_none (Incident.deleted_at i)))].
    f_equal. f_equal. apply filter_ext. intros i. unfold is_none.
    symmetry. apply negb_involutive.
Qed.

(** *** Creation *)

Lemma filter_none {A : Type} (p : A -> bool) (l : list A) :
  (forall x, In x l -> p x = false) -> filter p l = [].
Proof.
  induction l as [|a l IH]; simpl; intros H; [reflexivity|].
  rewrite (H a (or_introl eq_refl)). apply IH.
  intros x Hx. apply H. right. exact Hx.
Qed.

Lemma find_none_app {A : Type} (p : A -> bool) (l : list A) (x : A) :
  (forall y, In y l -> p y = false) -> p x = true ->
  find p (l ++ [x]) = Some x.
Proof.
  induction l as [|a l IH]; simpl; intros H Hx.
  - rewrite Hx. reflexivity.
  - rewrite (H a (or_introl eq_refl)). apply IH; [|exact Hx].
    intros y Hy. apply H. right. exact Hy.
Qed.

(** X8.  When [create_incident] returns, [get_incident] on the database
    it stored finds exactly the incident that was returned, and its [sla]
    relationship loads the SLA created with it: ACTIVE, with no response
    recorded, no pause and no breach notification, its two deadlines apart
    by the difference of the configured hours. *)
Theorem create_then_get (settings : Config.Settings) (db db' : DB)
    (data : IncidentCreate) (reporter incident_uuid sla_uuid : UUID)
    (now : datetime) (incident : Incident.t) :
  create_incident settings db data reporter incident_uuid sla_uuid now
  = inr (db', incident) ->
  Incident.id incident = incident_uuid
  /\ get_incident db' incident_uuid = inr (Some incident)
  /\ exists sla,
       incident_sla db' incident = Some sla
       /\ SLA.id sla = sla_uuid
       /\ SLA.status sla = ACTIVE
       /\ SLA.response_at sla = None
       /\ SLA.paused_at sla = None
       /\ SLA.paused_duration sla = 0
       /\ SLA.breach_notified_at sla = None
       /\ SLA.resolution_deadline sla - SLA.response_deadline sla
          = (Config.resolution_hours (configured settings (priority data))
             - Config.response_hours (configured settings (priority data)))
            * (3600 * 1000000).
Proof.
  unfold create_incident, flush_incident, commit_sla. simpl.
  destruct (existsb _ (incidents db)) eqn:Ei; simpl; [discriminate|].
  destruct (user_exists db reporter) eqn:Eu; simpl; [|discriminate].
  destruct (existsb (fun s => N.eqb (SLA.id s) sla_uuid) (slas db))
    eqn:Es; simpl; [discriminate|].
  destruct (existsb (fun s => N.eqb (SLA.incident_id s) incident_uuid)
              (slas db)) eqn:Ek; simpl; [discriminate|].
  intros H. injection H as <- <-.
  apply IncidentServiceFacts.existsb_key_false in Ei, Ek.
  split; [reflexivity|]. split.
  - unfold get_incident. simpl. rewrite filter_app. simpl.
    rewrite N.eqb_refl. simpl. rewrite filter_none; [reflexivity|].
    intros x Hx. destruct (N.eqb_spec (Incident.id x) incident_uuid) as [E|E];
      [|reflexivity].
    exfalso. apply Ei. rewrite <- E. apply in_map. exact Hx.
  - eexists. unfold incident_sla. simpl. split.
    + apply find_none_app; [|simpl; apply N.eqb_refl].
      intros y Hy.
      destruct (N.eqb_spec (SLA.incident_id y) incident_uuid) as [E|E];
        [|reflexivity].
      exfalso. apply Ek. rewrite <- E. apply in_map. exact Hy.
    + simpl. repeat (split; [reflexivity|]).
      rewrite ConfigFacts.get_sla_deadlines_known
        with (P := priority data) by apply ConfigFacts.lower_priority_value.
      unfold add_hours, timedelta_hours, microseconds_per_hour. lia.
Qed.

(** X8 in [db_disk]: alice reports a CRITICAL incident at time 1000 under
    the new keys 8 and 80. *)
Lemma create_then_get_witness :
  exists db' incident,
    create_incident Config.default_settings Examples.db_disk
      {| title := "Login fails"; description := "HTTP 500";
         priority := CRITICAL |} 2%N 8%N 80%N 1000 = inr (db', incident)
    /\ get_incident db' 8%N = inr (Some incident)
    /\ exists sla, incident_sla db' incident = Some sla
                   /\ SLA.id sla = 80%N.
Proof.
  do 2 eexists. split; [reflexivity|].
  destruct (create_then_get Config.default_settings Examples.db_disk _
              {| title := "Login fails"; description := "HTTP 500";
                 priority := CRITICAL |} 2%N 8%N 80%N 1000 _ eq_refl)
    as (_ & Hget & sla & Hsla & Hid & _).
  split; [exact Hget|]. exists sla. split; assumption.
Defined.

(** *** The schema constraints as an invariant *)

Lemma NoDup_snoc {A : Type} (l : list A) (x : A) :
  NoDup l -> ~ In x l -> NoDup (l ++ [x]).
Proof.
  induction l as [|a l IH]; simpl; intros Hnd Hx.
  - constructor; [intros [] | constructor].
  - inversion Hnd as [|? ? Ha Hl]; subst. constructor.
    + rewrite in_app_iff. simpl. intros [H|[H|[]]]; [exact (Ha H)|].
      apply Hx. left. symmetry. exact H.
    + apply IH; [exact Hl|]. intros H. apply Hx. right. exact H.
Qed.

Lemma update_sla_row_keys (s s' : SLA.t) (rows : list SLA.t) :
  NoDup (map SLA.id rows) -> In s rows ->
  SLA.id s' = SLA.id s -> SLA.incident_id s' = SLA.incident_id s ->
  map SLA.id (update_sla_row s' rows) = map SLA.id rows
  /\ map SLA.incident_id (update_sla_row s' rows)
     = map SLA.incident_id rows.
Proof.
  intros Hnd Hin Hid Hinc. unfold update_sla_row. rewrite !map_map.
  split; apply map_ext_in; intros x Hx;
    destruct (N.eqb_spec (SLA.id x) (SLA.id s')) as [E|E]; try reflexivity.
  - symmetry. exact E.
  - rewrite Hinc. f_equal.
    apply (SLACheckerFacts.NoDup_key_inj SLA.id rows); auto. congruence.
Qed.

(** Writing back a row of the incidents table that keeps its id, its
    reporter and an assignee that is a user. *)
Lemma schema_ok_update_incident (db : DB) (i i' : Incident.t)
    (ss : list SLA.t) :
  schema_ok db -> In i (incidents db) ->
  Incident.id i' = Incident.id i ->
  Incident.reporter_id i' = Incident.reporter_id i ->
  (forall a, Incident.assignee_id i' = Some a ->
             user_exists db a = true) ->
  map SLA.id ss = map SLA.id (slas db) ->
  map SLA.incident_id ss = map SLA.incident_id (slas db) ->
  schema_ok {| users := users db;
               incidents := update_incident_row i' (incidents db);
               slas := ss |}.
Proof.
  intros [(Hu & Hi & Hs & Hsi) (Hr1 & Hr2)] Hin Hid Hrep Hass Hss Hssi.
  split; [|split].
  - unfold keys_ok. simpl. rewrite update_incident_row_ids, Hss, Hssi. auto.
  - simpl. intros s Hs'. rewrite update_incident_row_ids.
    assert (H : In (SLA.incident_id s) (map SLA.incident_id (slas db)))
      by (rewrite <- Hssi; apply in_map; exact Hs').
    apply in_map_iff in H. destruct H as (s0 & <- & Hs0). apply Hr1, Hs0.
  - simpl. intros x Hx.
    apply update_incident_row_In in Hx. destruct Hx as [->|[Hx _]].
    + split; [rewrite Hrep; exact (proj1 (Hr2 i Hin)) | exact Hass].
    + exact (Hr2 x Hx).
Qed.

Lemma update_incident_found (db db' : DB) (iid : UUID)
    (data : IncidentUpdate.t) (i : Incident.t) (r : option Incident.t) :
  get_incident db iid = inr (Some i) ->
  update_incident db iid data = inr (db', r) ->
  exists i',
    db' = {| users := users db;
             incidents := update_incident_row i' (incidents db);
             slas := slas db |}
    /\ Incident.id i' = Incident.id i
    /\ Incident.reporter_id i' = Incident.reporter_id i
    /\ (Incident.assignee_id i' = Incident.assignee_id i
        \/ Incident.assignee_id i' = None
        \/ exists a, Incident.assignee_id i' = Some a
                     /\ user_exists db a = true).
Proof.
  intros Hget H. unfold update_incident in H. rewrite Hget in H.
  destruct data as [t d s p a]. simpl in H.
  destruct t as [[t|]|], d as [[d|]|], s as [[s|]|], p as [[p|]|];
    simpl in H; try discriminate;
    destruct a as [[a|]|]; simpl in H;
    try (destruct (user_exists db a) eqn:Ea); try discriminate;
    injection H as <- <-; eexists; (split; [reflexivity|]); simpl;
    (split; [reflexivity|]); (split; [reflexivity|]);
    first [ left; reflexivity
          | right; left; reflexivity
          | right; right; exists a; split; [reflexivity | exact Ea] ].
Qed.

Lemma update_status_found_db (db db' : DB) (iid : UUID)
    (st : IncidentStatus) (now : datetime) (i : Incident.t)
    (r : option Incident.t) :
  get_incident db iid = inr (Some i) ->
  update_status db iid st now = inr (db', r) ->
  exists i' ss,
    db' = {| users := users db;
             incidents := update_incident_row i' (incidents db);
             slas := ss |}
    /\ Incident.id i' = Incident.id i
    /\ Incident.reporter_id i' = Incident.reporter_id i
    /\ Incident.assignee_id i' = Incident.assignee_id i
    /\ (ss = slas db
        \/ exists s, incident_sla db i = Some s
                     /\ ss = update_sla_row (SLA.set_status MET s) (slas db)).
Proof.
  intros Hget H. unfold update_status in H. rewrite Hget in H.
  destruct (incident_sla db i) as [s|] eqn:Hsla;
    destruct (Incident.resolved_at i) as [tr|] eqn:Er;
    destruct (Incident.closed_at i) as [tc|] eqn:Ec;
    destruct st; simpl in H; rewrite ?Er, ?Ec in H; simpl in H;
    rewrite ?Er, ?Ec in H; simpl in H;
    injection H as <- <-; do 2 eexists; (split; [reflexivity|]); simpl;
    (split; [reflexivity|]); (split; [reflexivity|]);
    (split; [reflexivity|]);
    first [ left; reflexivity
          | right; exists s; split; reflexivity ].
Qed.

Lemma schema_ok_step (settings : Config.Settings) (db db' : DB) :
  schema_ok db -> step settings db db' -> schema_ok db'.
Proof.
  intros Hok Hstep. pose proof Hok as [(Hu & Hi & Hs & Hsi) (Hr1 & Hr2)].
  destruct Hstep as
    [db data reporter iu su now db' incident Hrun
    |db iid st now db' r Hrun
    |db iid a db' r Hrun
    |db iid data db' r Hrun
    |db iid now db' r Hrun
    |env db now db' out res Hrun].
  - (* create_incident *)
    apply IncidentServiceFacts.create_incident_returns in Hrun.
    destruct Hrun as (Hfi & Hrep & Hfs & Hfk & Hid & Hrid & Has & _
                      & sla & -> & Hsid & Hsk & _).
    split; [|split].
    + unfold keys_ok. simpl. rewrite !map_app. simpl.
      rewrite Hid, Hsid, Hsk.
      split; [exact Hu|]. split; [apply NoDup_snoc; assumption|].
      split; [apply NoDup_snoc; assumption|].
      apply NoDup_snoc; assumption.
    + simpl. intros s Hin. rewrite map_app, in_app_iff.
      apply in_app_iff in Hin. destruct Hin as [Hin|[<-|[]]].
      * left. apply Hr1, Hin.
      * right. left. rewrite Hid, Hsk. reflexivity.
    + simpl. intros i Hin.
      apply in_app_iff in Hin. destruct Hin as [Hin|[<-|[]]].
      * exact (Hr2 i Hin).
      * rewrite Hrid, Has. split; [exact Hrep | discriminate].
  - (* update_status *)
    destruct (get_incident db iid) as [e|[i|]] eqn:Hget.
    + unfold update_status in Hrun. rewrite Hget in Hrun. discriminate.
    + destruct (update_status_found_db db db' iid st now i r Hget Hrun)
        as (i' & ss & -> & Hid & Hrep & Hass & Hss).
      pose proof (IncidentServiceFacts.get_incident_Some db iid i Hget)
        as (Hin & _ & _).
      assert (Hmaps : map SLA.id ss = map SLA.id (slas db)
                      /\ map SLA.incident_id ss
                         = map SLA.incident_id (slas db)).
      { destruct Hss as [->|(s & Hsla & ->)]; [split; reflexivity|].
        apply find_some in Hsla. destruct Hsla as [Hsin _].
        apply (update_sla_row_keys s); auto. }
      apply schema_ok_update_incident with (i := i); try assumption;
        try apply Hmaps.
      intros a Ha. apply (proj2 (Hr2 i Hin) a). congruence.
    + unfold update_status in Hrun. rewrite Hget in Hrun.
      injection Hrun as <- _. exact Hok.
  - (* assign_incident *)
    unfold assign_incident in Hrun.
    destruct (get_incident db iid) as [e|[i|]] eqn:Hget; try discriminate;
      [|injection Hrun as <- _; exact Hok].
    pose proof (IncidentServiceFacts.get_incident_Some db iid i Hget)
      as (Hin & _ & _).
    simpl in Hrun. destruct (user_exists db a) eqn:Ha; [|discriminate].
    injection Hrun as <- _.
    apply schema_ok_update_incident with (i := i); try assumption;
      try reflexivity;
      try (destruct (IncidentStatus_eqb (Incident.status i) OPEN);
           reflexivity).
    intros a' Ha'.
    replace a' with a; [exact Ha|].
    destruct (IncidentStatus_eqb (Incident.status i) OPEN);
      simpl in Ha'; congruence.
  - (* update_incident *)
    destruct (get_incident db iid) as [e|[i|]] eqn:Hget.
    + unfold update_incident in Hrun. rewrite Hget in Hrun. discriminate.
    + destruct (update_incident_found db db' iid data i r Hget Hrun)
        as (i' & -> & Hid & Hrep & Hass).
      pose proof (IncidentServiceFacts.get_incident_Some db iid i Hget)
        as (Hin & _ & _).
      apply schema_ok_update_incident with (i := i); try assumption;
        try reflexivity.
      intros a Ha. destruct Hass as [E|[E|(a0 & E & Hex)]].
      * apply (proj2 (Hr2 i Hin) a). congruence.
      * congruence.
      * congruence.
    + unfold update_incident in Hrun. rewrite Hget in Hrun.
      injection Hrun as <- _. exact Hok.
  - (* delete_incident *)
    unfold delete_incident in Hrun.
    destruct (get_incident db iid) as [e|[i|]] eqn:Hget; try discriminate;
      [|injection Hrun as <- _; exact Hok].
    pose proof (IncidentServiceFacts.get_incident_Some db iid i Hget)
      as (Hin & _ & _).
    injection Hrun as <- _.
    apply schema_ok_update_incident with (i := i); try assumption;
      try reflexivity.
    intros a Ha. apply (proj2 (Hr2 i Hin) a). exact Ha.
  - (* check_sla_breaches *)
    destruct (SLACheckerFacts.check_sla_breaches_spec env db now)
      as [(out' & rest & H & _)|H]; rewrite H in Hrun.
    + injection Hrun as <- _ _. exact Hok.
    + injection Hrun as <- _ _. split.
      * apply SLACheckerFacts.committed_keys_ok. exact (proj1 Hok).
      * split; simpl.
        -- intros s' Hs'.
           destruct (SLACheckerFacts.committed_slas_origin db now s'
                       (proj1 Hok) Hs')
             as (x & Hx & [[-> _]| ->]); exact (Hr1 x Hx).
        -- exact Hr2.
Qed.

(** X9.  The constraints of the schema (unique primary keys, one SLA per
    incident, every SLA referring to an incident, every reporter and
    assignee referring to a user) hold after any sequence of operations
    that return normally (creating, changing the status, assigning,
    editing, soft-deleting, running the breach scan with or without a
    failure) whenever they hold before it. *)
Theorem schema_ok_invariant (settings : Config.Settings) (db db' : DB) :
  schema_ok db -> steps settings db db' -> schema_ok db'.
Proof.
  intros Hok Hsteps. induction Hsteps as [db|db db1 db2 _ IH Hstep].
  - exact Hok.
  - apply (schema_ok_step settings db1); [apply IH; exact Hok | exact Hstep].
Qed.

Lemma schema_ok_db_mail : schema_ok Examples.db_mail.
Proof.
  split; [|split].
  - repeat split; simpl;
      repeat (constructor; [simpl; intuition discriminate|]); constructor.
  - intros s [<-|[]]. simpl. tauto.
  - intros i [<-|[]]. simpl. split; [reflexivity | discriminate].
Qed.

(** X9 at [db_mail]: the incident is assigned to bob, the breach scan
    runs at time 1500 with a broker that would refuse a second call (the
    run makes one), and the incident is resolved at time 1600. *)
Lemma schema_ok_invariant_witness :
  exists db1 r1 db3 r3,
    assign_incident Examples.db_mail 11%N 3%N = inr (db1, r1)
    /\ update_status
         (fst (fst (SLAChecker.check_sla_breaches
                      Examples.broker_fails_on_second_call db1 1500)))
         11%N RESOLVED 1600 = inr (db3, r3)
    /\ schema_ok db3.
Proof.
  do 4 eexists. split; [reflexivity|]. split; [reflexivity|].
  apply (schema_ok_invariant Config.default_settings Examples.db_mail);
    [exact schema_ok_db_mail|].
  eapply steps_then;
    [eapply steps_then;
     [eapply steps_then; [apply steps_refl|]|]|].
  - eapply (step_assign _ Examples.db_mail 11%N 3%N). reflexivity.
  - eapply (step_scan _ Examples.broker_fails_on_second_call _ 1500).
    reflexivity.
  - eapply (step_update_status _ _ 11%N RESOLVED 1600). reflexivity.
Defined.

End ServiceExtras.

(** ** Further properties of the breach scan *)

Module ScannerExtras.
Import SLAChecker SLACheckerFacts.

Lemma touch_not_selected (now : datetime) (rows : list Row) (x : SLA.t) :
  (forall r, In r rows -> SLA.id (row_sla r) <> SLA.id x) ->
  touch (marked now rows) x = x.
Proof.
  induction rows as [|r rows IH]; intros H; [reflexivity|].
  unfold touch, marked in *. simpl.
  destruct (N.eqb_spec (SLA.id x) (SLA.id (row_sla r))) as [E|E].
  - exfalso. apply (H r (or_introl eq_refl)). symmetry. exact E.
  - apply IH. intros r' Hr'. apply H. right. exact Hr'.
Qed.

Lemma find_unique {A : Type} (key : A -> N) (l : list A) (x : A) :
  NoDup (map key l) -> In x l ->
  find (fun y => N.eqb (key y) (key x)) l = Some x.
Proof.
  intros Hnd Hin.
  destruct (find (fun y => N.eqb (key y) (key x)) l) as [y|] eqn:E.
  - apply find_some in E. destruct E as [Hy Hk]. apply N.eqb_eq in Hk.
    f_equal. apply (NoDup_key_inj key l); assumption.
  - exfalso. pose proof (find_none _ _ E x Hin) as H.
    cbv beta in H. rewrite N.eqb_refl in H. discriminate.
Qed.

(** A row of the breach query for the incident an SLA belongs to carries
    that SLA. *)
Lemma selected_row_sla (db : DB) (now : datetime) (s : SLA.t) (r : Row) :
  keys_ok db -> In s (slas db) ->
  In r (rows_for (SLA.incident_id s) (select_breached db now)) ->
  row_sla r = s /\ breach_where now r = true.
Proof.
  intros (_ & _ & _ & Hsi) Hs Hr. apply filter_In in Hr.
  destruct Hr as [Hr Hid]. apply N.eqb_eq in Hid.
  apply select_breached_In in Hr. destruct Hr as [Hj Hw].
  apply joined_rows_In in Hj. destruct Hj as (Hin & _ & Hinc & _).
  split; [|exact Hw].
  apply (NoDup_key_inj SLA.incident_id (slas db)); auto. congruence.
Qed.

Lemma not_active_not_selected (db : DB) (now : datetime) (s : SLA.t) :
  keys_ok db -> In s (slas db) -> SLA.status s <> ACTIVE ->
  rows_for (SLA.incident_id s) (select_breached db now) = [].
Proof.
  intros Hk Hs Hst.
  destruct (rows_for (SLA.incident_id s) (select_breached db now))
    as [|r l] eqn:E; [reflexivity|]. exfalso.
  destruct (selected_row_sla db now s r Hk Hs) as [Hr Hw];
    [rewrite E; left; reflexivity|].
  unfold breach_where in Hw. rewrite Hr in Hw.
  destruct (SLA.status s); simpl in Hw; try discriminate. congruence.
Qed.

Lemma unselected_sla_kept (db : DB) (now : datetime) (s : SLA.t) :
  keys_ok db -> In s (slas db) ->
  rows_for (SLA.incident_id s) (select_breached db now) = [] ->
  In s (slas (committed db now)).
Proof.
  intros Hk Hs Hrows. simpl. rewrite flush_map. apply in_map_iff.
  exists s. split; [|exact Hs]. apply touch_not_selected.
  intros r Hr Hid. pose proof Hk as (_ & _ & Hnd & _).
  assert (Hrs : row_sla r = s).
  { apply (NoDup_key_inj SLA.id (slas db)); auto.
    eapply select_breached_sla_In; exact Hr. }
  assert (Hin : In r (rows_for (SLA.incident_id s)
                        (select_breached db now))).
  { apply filter_In. split; [exact Hr|]. apply N.eqb_eq.
    apply select_breached_In in Hr. destruct Hr as [Hj _].
    apply joined_rows_In in Hj. destruct Hj as (_ & _ & Hinc & _).
    congruence. }
  rewrite Hrows in Hin. contradiction.
Qed.

(** X10.  In a database that satisfies the key constraints, an SLA whose
    status is not ACTIVE (PAUSED, MET or BREACHED) is out of the reach of
    the breach scan at every time and whatever fails: the query does not
    return it, no notification is handed over for its incident, and the
    run leaves its row exactly as it was. *)
Theorem inactive_sla_is_never_scanned (env : Env) (db : DB)
    (now : datetime) (s : SLA.t) :
  keys_ok db -> In s (slas db) -> SLA.status s <> ACTIVE ->
  rows_for (SLA.incident_id s) (select_breached db now) = []
  /\ count_for (SLA.incident_id s)
       (snd (fst (check_sla_breaches env db now))) = 0%nat
  /\ In s (slas (fst (fst (check_sla_breaches env db now)))).
Proof.
  intros Hk Hs Hst.
  pose proof (not_active_not_selected db now s Hk Hs Hst) as Hrows.
  split; [exact Hrows|]. split.
  - pose proof (count_for_run_le env db now (SLA.incident_id s)) as H.
    rewrite Hrows in H. simpl in H. lia.
  - destruct (check_sla_breaches_spec env db now)
      as [(out & rest & -> & _)| ->]; simpl fst.
    + exact Hs.
    + apply unselected_sla_kept; assumption.
Qed.

(** X10 in [db_two_paused] at time 100.  With both SLAs ACTIVE, as in
    [db_two], the scan hands over a notification for incident 7 and one
    for incident 8; with the SLA of incident 7 PAUSED the join still pairs
    it with its incident and assignee, but the scan matches the SLA of
    incident 8 only and leaves the paused row as it is. *)
Lemma inactive_sla_is_never_scanned_witness :
  check_sla_breaches no_failures Examples.db_two 100
  = (committed Examples.db_two 100,
     [Examples.disk_intent; Examples.net_intent], Success 2 2)
  /\ In (Examples.paused_disk_sla, Examples.disk_incident,
         Some Examples.alice) (joined_rows Examples.db_two_paused)
  /\ check_sla_breaches no_failures Examples.db_two_paused 100
     = (committed Examples.db_two_paused 100,
        [Examples.net_intent], Success 1 1)
  /\ rows_for 7%N (select_breached Examples.db_two_paused 100) = []
  /\ count_for 7%N
       (snd (fst (check_sla_breaches no_failures
                    Examples.db_two_paused 100))) = 0%nat
  /\ In Examples.paused_disk_sla
       (slas (fst (fst (check_sla_breaches no_failures
                          Examples.db_two_paused 100)))).
Proof.
  split; [reflexivity|]. split; [left; reflexivity|].
  split; [reflexivity|].
  apply (inactive_sla_is_never_scanned no_failures Examples.db_two_paused
           100 Examples.paused_disk_sla).
  - repeat split; simpl;
      repeat (constructor; [simpl; intuition discriminate|]); constructor.
  - left. reflexivity.
  - discriminate.
Defined.

(** X11.  Resolving before the scan.  In a database that satisfies the
    key constraints, once [update_status] has recorded the first
    resolution of an incident that owns an SLA, no later breach scan, at
    any time and whatever fails, returns that SLA or hands over a
    notification for the incident, and the SLA is still MET after the
    scan. *)
Theorem resolved_incident_never_breaches (env : Env) (db db1 : DB)
    (iid : UUID) (t now : datetime) (i : Incident.t) (s : SLA.t)
    (r : option Incident.t) :
  keys_ok db ->
  IncidentService.get_incident db iid = inr (Some i) ->
  Incident.resolved_at i = None ->
  IncidentService.incident_sla db i = Some s ->
  IncidentService.update_status db iid RESOLVED t = inr (db1, r) ->
  rows_for iid (select_breached db1 now) = []
  /\ count_for iid (snd (fst (check_sla_breaches env db1 now))) = 0%nat
  /\ In (SLA.set_status MET s)
        (slas (fst (fst (check_sla_breaches env db1 now)))).
Proof.
  intros Hk Hget Hres Hsla Hrun.
  pose proof (IncidentServiceFacts.get_incident_Some db iid i Hget)
    as (Hin & Hiid & _).
  pose proof (find_some _ _ Hsla) as [Hsin Hsid]. apply N.eqb_eq in Hsid.
  assert (Hdb1 : slas db1 = update_sla_row (SLA.set_status MET s) (slas db)
                 /\ users db1 = users db
                 /\ map Incident.id (incidents db1)
                    = map Incident.id (incidents db)).
  { unfold IncidentService.update_status in Hrun.
    rewrite Hget, Hsla in Hrun. simpl in Hrun. rewrite Hres in Hrun.
    simpl in Hrun. injection Hrun as <- _. simpl.
    split; [reflexivity|]. split; [reflexivity|].
    apply ServiceExtras.update_incident_row_ids. }
  destruct Hdb1 as (Hslas & Husers & Hids).
  pose proof Hk as (Hu & Hi & Hs & Hsi).
  destruct (ServiceExtras.update_sla_row_keys s (SLA.set_status MET s)
              (slas db) Hs Hsin eq_refl eq_refl) as [Hk1 Hk2].
  assert (Hk' : keys_ok db1).
  { unfold keys_ok. rewrite Husers, Hids, Hslas, Hk1, Hk2. auto. }
  assert (Hmet : In (SLA.set_status MET s) (slas db1)).
  { rewrite Hslas. unfold update_sla_row. apply in_map_iff. exists s.
    rewrite N.eqb_refl. auto. }
  assert (Hrows : rows_for iid (select_breached db1 now) = []).
  { replace iid with (SLA.incident_id (SLA.set_status MET s))
      by (simpl; congruence).
    apply not_active_not_selected; try assumption. simpl. discriminate. }
  split; [exact Hrows|]. split.
  - pose proof (count_for_run_le env db1 now iid) as H.
    rewrite Hrows in H. simpl in H. lia.
  - destruct (check_sla_breaches_spec env db1 now)
      as [(out & rest & -> & _)| ->]; simpl fst.
    + exact Hmet.
    + apply unselected_sla_kept; try assumption.
      simpl. replace (SLA.incident_id s) with iid by congruence.
      exact Hrows.
Qed.

Lemma resolved_incident_never_breaches_witness :
  exists db1 r,
    IncidentService.update_status Examples.db_mail 11%N RESOLVED 500
    = inr (db1, r)
    /\ count_for 11%N
         (snd (fst (check_sla_breaches no_failures db1 5000))) = 0%nat.
Proof.
  do 2 eexists. split; [reflexivity|].
  apply (resolved_incident_never_breaches no_failures Examples.db_mail _
           11%N 500 5000 Examples.mail_incident Examples.mail_sla _
           (proj1 ServiceExtras.schema_ok_db_mail)
           eq_refl eq_refl eq_refl eq_refl).
Defined.

Lemma get_incident_unique (db : DB) (i : Incident.t) :
  NoDup (map Incident.id (incidents db)) ->
  In i (incidents db) -> Incident.deleted_at i = None ->
  IncidentService.get_incident db (Incident.id i) = inr (Some i).
Proof.
  intros Hnd Hin Hdel. unfold IncidentService.get_incident.
  assert (H : filter
                (fun x => (N.eqb (Incident.id x) (Incident.id i)
                           && is_none (Incident.deleted_at x))%bool)
                (incidents db) = [i]); [|rewrite H; reflexivity].
  induction (incidents db) as [|a rows IH]; [contradiction|].
  simpl in Hnd. inversion Hnd as [|? ? Hnotin Hnd']; subst. simpl.
  destruct Hin as [->|Hin].
  - rewrite N.eqb_refl, Hdel. simpl. f_equal.
    apply ServiceExtras.filter_none. intros x Hx.
    destruct (N.eqb_spec (Incident.id x) (Incident.id i)) as [E|E];
      [|reflexivity].
    exfalso. apply Hnotin. rewrite <- E. apply in_map. exact Hx.
  - destruct (N.eqb_spec (Incident.id a) (Incident.id i)) as [E|E].
    + exfalso. apply Hnotin. rewrite E. apply in_map. exact Hin.
    + simpl. apply IH; assumption.
Qed.

(** X12.  Resolving after the scan.  In a database that satisfies the key
    constraints, when a completed breach scan has marked the SLA of a
    live, unresolved incident as BREACHED and the incident is resolved
    afterwards, [update_status] overwrites the status BREACHED with MET;
    the SLA keeps the [breach_notified_at] written by the scan. *)
Theorem late_resolution_overwrites_breach (env : Env) (db db1 : DB)
    (now t : datetime) (out : list Intent) (b n : nat) (r : Row) :
  keys_ok db ->
  check_sla_breaches env db now = (db1, out, Success b n) ->
  In r (select_breached db now) ->
  Incident.deleted_at (row_incident r) = None ->
  Incident.resolved_at (row_incident r) = None ->
  exists db2 i2 s2,
    IncidentService.update_status db1 (Incident.id (row_incident r))
      RESOLVED t = inr (db2, Some i2)
    /\ Incident.resolved_at i2 = Some t
    /\ IncidentService.incident_sla db1 (row_incident r)
       = Some (mark_breached now (row_sla r))
    /\ IncidentService.incident_sla db2 i2 = Some s2
    /\ SLA.status s2 = MET
    /\ SLA.breach_notified_at s2 = Some now.
Proof.
  intros Hk Hrun Hr Hdel Hres. apply success_inv in Hrun.
  destruct Hrun as (-> & _ & _ & _).
  pose proof (select_breached_In db now r Hr) as [Hj _].
  apply joined_rows_In in Hj. destruct Hj as (Hsin & Hiin & Hinc & _).
  pose proof (committed_keys_ok db now Hk) as (_ & Hi' & _ & Hsi').
  assert (Hget : IncidentService.get_incident (committed db now)
                   (Incident.id (row_incident r))
                 = inr (Some (row_incident r)))
    by (apply get_incident_unique; assumption).
  assert (Hsla : IncidentService.incident_sla (committed db now)
                   (row_incident r)
                 = Some (mark_breached now (row_sla r))).
  { unfold IncidentService.incident_sla.
    replace (Incident.id (row_incident r))
      with (SLA.incident_id (mark_breached now (row_sla r)))
      by (simpl; exact Hinc).
    apply (find_unique SLA.incident_id); [exact Hsi'|].
    apply committed_In_marked; assumption. }
  unfold IncidentService.update_status. rewrite Hget, Hsla. simpl.
  rewrite Hres. simpl.
  eexists _, _, (SLA.set_status MET (mark_breached now (row_sla r))).
  split; [reflexivity|]. split; [reflexivity|].
  split; [reflexivity|]. split; [|split; reflexivity].
  unfold IncidentService.incident_sla. simpl.
  apply IncidentServiceFacts.find_update_sla_row
    with (s := mark_breached now (row_sla r));
    [exact Hsla | reflexivity | simpl; exact Hinc].
Qed.

Lemma late_resolution_overwrites_breach_witness :
  exists db2 i2 s2,
    IncidentService.update_status (committed Examples.db_two 100) 8%N
      RESOLVED 300 = inr (db2, Some i2)
    /\ IncidentService.incident_sla db2 i2 = Some s2
    /\ SLA.status s2 = MET
    /\ SLA.breach_notified_at s2 = Some 100.
Proof.
  destruct (late_resolution_overwrites_breach no_failures Examples.db_two
              (committed Examples.db_two 100) 100 300
              (notifications (select_breached Examples.db_two 100)) 2 2
              (Examples.net_sla, Examples.net_incident, Some Examples.bob)
              keys_ok_db_two eq_refl (or_intror (or_introl eq_refl))
              eq_refl eq_refl)
    as (db2 & i2 & s2 & H1 & _ & _ & H2 & H3 & H4).
  exists db2, i2, s2. repeat split; assumption.
Defined.

Lemma breach_where_mono (now1 now2 : datetime) (r : Row) :
  now2 <= now1 -> breach_where now2 r = true -> breach_where now1 r = true.
Proof.
  unfold breach_where. intros Hle H.
  apply andb_true_iff in H. destruct H as [H Hn].
  apply andb_true_iff in H. destruct H as [Ha Hor].
  rewrite Ha, Hn, andb_true_r. simpl.
  apply orb_true_iff in Hor. apply orb_true_iff.
  destruct Hor as [H|H]; apply andb_true_iff in H; destruct H as [H1 H2].
  - left. rewrite H1. simpl. apply Z.ltb_lt in H2. apply Z.ltb_lt. lia.
  - right. rewrite H2, andb_true_r. apply Z.ltb_lt in H1.
    apply Z.ltb_lt. lia.
Qed.

Lemma select_after_commit_nil (db : DB) (now1 now2 : datetime) :
  keys_ok db -> now2 <= now1 ->
  select_breached (committed db now1) now2 = [].
Proof.
  intros Hk Hle.
  destruct (select_breached (committed db now1) now2) as [|r l] eqn:E;
    [reflexivity|]. exfalso.
  assert (Hr : In r (select_breached (committed db now1) now2))
    by (rewrite E; left; reflexivity).
  apply select_breached_In in Hr. destruct Hr as [Hj Hw].
  pose proof (joined_rows_In _ _ Hj) as (Hs & _ & _ & _).
  destruct (committed_slas_origin db now1 (row_sla r) Hk Hs)
    as (x & Hx & [[Hsame Hnot]|Hmark]).
  - apply (Hnot r); [|exact Hsame].
    apply filter_In. split; [|apply (breach_where_mono now1 now2); auto].
    unfold joined_rows in *. apply in_flat_map in Hj.
    destruct Hj as (s' & Hs' & Hrow). apply in_flat_map. exists (row_sla r).
    split; [rewrite Hsame; exact Hx|].
    pose proof (sla_rows_In _ _ _ Hrow) as (<- & _). exact Hrow.
  - unfold breach_where in Hw. rewrite Hmark in Hw. simpl in Hw.
    discriminate.
Qed.

(** X13.  In a database that satisfies the key constraints, after a
    breach scan has completed at time [now1], a further run whose clock
    reads [now1] or earlier finds no candidate: when its query and its
    commit do not raise it reports zero breaches and zero notifications
    and leaves the database as it is. *)
Theorem rerun_is_a_no_op (env1 env2 : Env) (db db1 : DB)
    (now1 now2 : datetime) (out1 : list Intent) (b n : nat) :
  keys_ok db ->
  check_sla_breaches env1 db now1 = (db1, out1, Success b n) ->
  now2 <= now1 ->
  execute_raises env2 = false ->
  commit_raises env2 = false ->
  select_breached db1 now2 = []
  /\ check_sla_breaches env2 db1 now2 = (db1, [], Success 0 0).
Proof.
  intros Hk Hrun Hle He Hc. apply success_inv in Hrun.
  destruct Hrun as (-> & _ & _ & _).
  pose proof (select_after_commit_nil db now1 now2 Hk Hle) as Hnil.
  split; [exact Hnil|].
  unfold check_sla_breaches. rewrite He, Hnil. simpl. rewrite Hc.
  reflexivity.
Qed.

Lemma rerun_is_a_no_op_witness :
  check_sla_breaches Examples.broker_fails_on_second_call
    (committed Examples.db_two 100) 100
  = (committed Examples.db_two 100, [], Success 0 0).
Proof.
  apply (rerun_is_a_no_op no_failures Examples.broker_fails_on_second_call
           Examples.db_two (committed Examples.db_two 100) 100 100
           (notifications (select_breached Examples.db_two 100)) 2 2
           keys_ok_db_two eq_refl).
  - lia.
  - reflexivity.
  - reflexivity.
Defined.

(** X14.  In a database that satisfies the key constraints, whatever a
    run of the breach scan returns, it leaves the users and incidents
    tables as they were and keeps the number of SLA rows; every SLA row
    after the run comes from a row before it that has the same id,
    incident, deadlines, [response_at] and pause fields, and is either
    that row unchanged or that row with status BREACHED and
    [breach_notified_at] set to the time of the run.  A completed run
    reports at least as many breaches as notifications. *)
Theorem scan_frame (env : Env) (db db1 : DB) (now : datetime)
    (out : list Intent) (res : ScanResult) :
  keys_ok db ->
  check_sla_breaches env db now = (db1, out, res) ->
  users db1 = users db
  /\ incidents db1 = incidents db
  /\ List.length (slas db1) = List.length (slas db)
  /\ (forall s', In s' (slas db1) ->
        exists x, In x (slas db)
          /\ (s' = x \/ s' = mark_breached now x)
          /\ SLA.id s' = SLA.id x
          /\ SLA.incident_id s' = SLA.incident_id x
          /\ SLA.response_deadline s' = SLA.response_deadline x
          /\ SLA.resolution_deadline s' = SLA.resolution_deadline x
          /\ SLA.response_at s' = SLA.response_at x
          /\ SLA.paused_at s' = SLA.paused_at x
          /\ SLA.paused_duration s' = SLA.paused_duration x)
  /\ (forall b n, res = Success b n -> (n <= b)%nat).
Proof.
  intros Hk Hrun.
  destruct (check_sla_breaches_spec env db now)
    as [(out' & rest & H & _)|H]; rewrite H in Hrun;
    injection Hrun as <- <- <-.
  - repeat split; try discriminate.
    intros s' Hs'. exists s'. repeat split; auto.
  - split; [reflexivity|]. split; [reflexivity|]. split; [|split].
    + simpl. rewrite flush_map. apply length_map.
    + intros s' Hs'.
      destruct (committed_slas_origin db now s' Hk Hs')
        as (x & Hx & [[-> _]| ->]); exists x; repeat split; auto.
    + intros b n Hbn. injection Hbn as <- <-.
      apply length_notifications_le.
Qed.

Lemma scan_frame_witness :
  incidents (fst (fst (check_sla_breaches
                         Examples.broker_fails_on_second_call
                         Examples.db_two 100)))
  = incidents Examples.db_two.
Proof.
  apply (scan_frame Examples.broker_fails_on_second_call Examples.db_two
           _ 100 _ _ keys_ok_db_two eq_refl).
Defined.

(** *** The warning pass *)

Lemma warn_rows_prefix (env : Env) (now : datetime) (rows : list Row) :
  forall k sent,
    let '(k', sent', raised) := warn_rows env now rows k sent in
    exists emitted rest,
      warnings now rows = (emitted ++ rest)%list
      /\ sent' = (sent ++ emitted)%list
      /\ k' = (k + List.length emitted)%nat
      /\ (raised = false -> rest = []).
Proof.
  induction rows as [|r rows IH]; intros k sent; simpl.
  - exists [], []. simpl. rewrite app_nil_r, Nat.add_0_r. repeat split.
  - unfold warnings in *. simpl.
    destruct (warning_of now r) as [w|] eqn:Ew.
    + destruct (delay_raises env k).
      * exists [], (w :: flat_map
                       (fun r => match warning_of now r with
                                 | Some w => [w]
                                 | None => []
                                 end) rows).
        simpl. rewrite app_nil_r, Nat.add_0_r.
        repeat split. discriminate.
      * specialize (IH (S k) (sent ++ [w])%list).
        destruct (warn_rows env now rows (S k) (sent ++ [w]))
          as [[k' sent'] raised].
        destruct IH as (emitted & rest & Hw & Hs & Hk & Hr).
        exists (w :: emitted), rest. simpl. rewrite Hw, Hs, <- app_assoc.
        repeat split; [lia | exact Hr].
    + specialize (IH k sent).
      destruct (warn_rows env now rows k sent) as [[k' sent'] raised].
      exact IH.
Qed.

Lemma check_approaching_prefix (env : Env) (db : DB) (now : datetime) :
  exists rest,
    warnings now (select_approaching db now)
    = (fst (check_approaching_deadlines env db now) ++ rest)%list
    /\ (forall k, snd (check_approaching_deadlines env db now)
                  = WarningSuccess k ->
          rest = []
          /\ k = List.length (fst (check_approaching_deadlines env db now))).
Proof.
  unfold check_approaching_deadlines. destruct (execute_raises env).
  - exists (warnings now (select_approaching db now)). simpl.
    split; [reflexivity | discriminate].
  - pose proof (warn_rows_prefix env now (select_approaching db now) 0%nat [])
      as H.
    destruct (warn_rows env now (select_approaching db now) 0 [])
      as [[k' sent'] raised].
    destruct H as (emitted & rest & Hw & Hs & Hk & Hr). simpl in Hs, Hk.
    subst sent' k'. exists rest. destruct raised; simpl.
    + split; [exact Hw | discriminate].
    + split; [exact Hw|]. intros k Hk. injection Hk as <-.
      split; [apply Hr; reflexivity | reflexivity].
Qed.

Lemma warnings_In (now : datetime) (rows : list Row) (w : Warning.t) :
  In w (warnings now rows) ->
  exists r, In r rows /\ warning_of now r = Some w.
Proof.
  unfold warnings. intros H. apply in_flat_map in H.
  destruct H as (r & Hr & Hw). exists r. split; [exact Hr|].
  destruct (warning_of now r) as [w'|]; [|contradiction].
  destruct Hw as [->|[]]. reflexivity.
Qed.

Lemma handed_over_warning_row (env : Env) (db : DB) (now : datetime)
    (w : Warning.t) :
  In w (fst (check_approaching_deadlines env db now)) ->
  exists r, In r (select_approaching db now) /\ warning_of now r = Some w.
Proof.
  intros H. destruct (check_approaching_prefix env db now) as (rest & Hw & _).
  apply warnings_In. rewrite Hw. apply in_or_app. left. exact H.
Qed.



Lemma not_active_not_warned (env : Env) (db : DB) (now : datetime)
    (s : SLA.t) (w : Warning.t) :
  keys_ok db -> In s (slas db) -> SLA.status s <> ACTIVE ->
  In w (fst (check_approaching_deadlines env db now)) ->
  Warning.incident_id w <> SLA.incident_id s.
Proof.
  intros (_ & _ & _ & Hsi) Hs Hst Hw Hid.
  destruct (handed_over_warning_row env db now w Hw) as (r & Hr & Hwr).
  apply filter_In in Hr. destruct Hr as [Hj Hwhere].
  apply joined_rows_In in Hj. destruct Hj as (Hin & _ & Hinc & _).
  assert (Hwid : Warning.incident_id w = Incident.id (row_incident r)).
  { unfold warning_of in Hwr. destruct (row_assignee r); [|discriminate].
    destruct (negb _); [|discriminate]. injection Hwr as <-. reflexivity. }
  assert (Hrs : row_sla r = s).
  { apply (NoDup_key_inj SLA.incident_id (slas db)); auto. congruence. }
  unfold approaching_where in Hwhere. rewrite Hrs in Hwhere.
  destruct (SLA.status s); simpl in Hwhere; try discriminate. congruence.
Qed.

(** X16.  In a database that satisfies the key constraints, once a
    completed breach scan has matched an SLA, no later warning pass, at
    any time and whatever fails, hands over a warning for the incident of
    that SLA. *)
Theorem breached_sla_is_not_warned (env1 env2 : Env) (db db1 : DB)
    (now1 now2 : datetime) (out : list Intent) (b n : nat) (r : Row)
    (w : Warning.t) :
  keys_ok db ->
  check_sla_breaches env1 db now1 = (db1, out, Success b n) ->
  In r (select_breached db now1) ->
  In w (fst (check_approaching_deadlines env2 db1 now2)) ->
  Warning.incident_id w <> Incident.id (row_incident r).
Proof.
  intros Hk Hrun Hr Hw. apply success_inv in Hrun.
  destruct Hrun as (-> & _ & _ & _).
  pose proof (select_breached_In db now1 r Hr) as [Hj _].
  apply joined_rows_In in Hj. destruct Hj as (_ & _ & Hinc & _).
  rewrite <- Hinc.
  change (SLA.incident_id (row_sla r))
    with (SLA.incident_id (mark_breached now1 (row_sla r))).
  apply (not_active_not_warned env2 (committed db now1) now2); auto.
  - apply committed_keys_ok. exact Hk.
  - apply committed_In_marked; assumption.
  - simpl. discriminate.
Qed.

Lemma breached_sla_is_not_warned_witness :
  check_approaching_deadlines no_failures (committed Examples.db_two 15) 18
  = ([{| Warning.incident_id := 7%N;
         Warning.assignee_email := "alice@example.com";
         Warning.time_remaining_minutes := 0 |}], WarningSuccess 1)
  /\ 7%N <> 8%N.
Proof.
  split; [reflexivity|].
  apply (breached_sla_is_not_warned no_failures no_failures Examples.db_two
           (committed Examples.db_two 15) 15 18
           (notifications (select_breached Examples.db_two 15)) 1 1
           (Examples.net_sla, Examples.net_incident, Some Examples.bob)
           {| Warning.incident_id := 7%N;
              Warning.assignee_email := "alice@example.com";
              Warning.time_remaining_minutes := 0 |}
           keys_ok_db_two eq_refl (or_introl eq_refl) (or_introl eq_refl)).
Defined.

(** X17.  A row can be matched by the breach query and by the warning
    query at the same instant only through a missed response: its
    [response_at] is unset, its response deadline has passed and its
    resolution deadline is still ahead.  An SLA whose response was
    recorded is never warned about and marked as breached by runs that
    read the same time. *)
Theorem warned_and_breached_together (db : DB) (now : datetime) (r : Row) :
  In r (select_breached db now) ->
  In r (select_approaching db now) ->
  SLA.response_at (row_sla r) = None
  /\ SLA.response_deadline (row_sla r) < now
  /\ now < SLA.resolution_deadline (row_sla r).
Proof.
  intros Hb Ha. apply filter_In in Hb. destruct Hb as [_ Hb].
  apply filter_In in Ha. destruct Ha as [_ Ha].
  unfold breach_where in Hb. unfold approaching_where in Ha.
  apply andb_true_iff in Ha. destruct Ha as [_ Ha].
  assert (Hlt : now < SLA.resolution_deadline (row_sla r)).
  { apply orb_true_iff in Ha.
    destruct Ha as [Ha|Ha]; apply andb_true_iff in Ha;
      destruct Ha as [Ha _]; apply andb_true_iff in Ha;
      destruct Ha as [_ Ha]; apply Z.ltb_lt in Ha; exact Ha. }
  apply andb_true_iff in Hb. destruct Hb as [Hb _].
  apply andb_true_iff in Hb. destruct Hb as [_ Hb].
  apply orb_true_iff in Hb. destruct Hb as [Hb|Hb];
    apply andb_true_iff in Hb; destruct Hb as [H1 H2].
  - apply SLAFacts.is_none_true in H1. apply Z.ltb_lt in H2. auto.
  - apply Z.ltb_lt in H1. lia.
Qed.

Lemma warned_and_breached_together_witness :
  SLA.response_at Examples.net_sla = None
  /\ SLA.response_deadline Examples.net_sla < 15
  /\ 15 < SLA.resolution_deadline Examples.net_sla.
Proof.
  apply (warned_and_breached_together Examples.db_two 15
           (Examples.net_sla, Examples.net_incident, Some Examples.bob)).
  - left. reflexivity.
  - right. left. reflexivity.
Defined.

End ScannerExtras.

(** ** Listing and paging *)

Module ListingExtras.
Import IncidentService.

Section Listing.

Variable created_at : Incident.t -> datetime.
Variable ilike : string -> string -> bool.

Lemma insert_desc_perm (i : Incident.t) (l : list Incident.t) :
  Permutation (insert_desc created_at i l) (i :: l).
Proof.
  induction l as [|x l IH]; simpl; [apply Permutation_refl|].
  destruct (created_at x <? created_at i); [apply Permutation_refl|].
  apply perm_trans with (x :: i :: l);
    [apply perm_skip; exact IH | apply perm_swap].
Qed.

Lemma order_by_perm (l : list Incident.t) :
  Permutation (order_by_created_at_desc created_at l) l.
Proof.
  induction l as [|a l IH]; simpl; [apply perm_nil|].
  apply perm_trans with (a :: order_by_created_at_desc created_at l);
    [apply insert_desc_perm | apply perm_skip; exact IH].
Qed.

Lemma insert_desc_sorted (i : Incident.t) (l : list Incident.t) :
  StronglySorted (newer_first created_at) l ->
  StronglySorted (newer_first created_at) (insert_desc created_at i l).
Proof.
  induction l as [|x l IH]; simpl; intros Hs.
  - constructor; [constructor | constructor].
  - destruct (Z.ltb_spec (created_at x) (created_at i)) as [Hlt|Hge].
    + constructor; [exact Hs|]. inversion Hs as [|? ? Hs' Hall]; subst.
      constructor; [unfold newer_first; lia|].
      apply Forall_impl with (P := newer_first created_at x);
        [unfold newer_first; intros y Hy; lia | exact Hall].
    + inversion Hs as [|? ? Hs' Hall]; subst.
      constructor; [apply IH; exact Hs'|].
      apply (Permutation_Forall (Permutation_sym (insert_desc_perm i l))).
      constructor; [exact Hge | exact Hall].
Qed.

Lemma order_by_sorted (l : list Incident.t) :
  StronglySorted (newer_first created_at)
    (order_by_created_at_desc created_at l).
Proof.
  induction l as [|a l IH]; simpl; [constructor|].
  apply insert_desc_sorted. exact IH.
Qed.

Lemma StronglySorted_skipn {A : Type} (R : A -> A -> Prop) (n : nat)
    (l : list A) :
  StronglySorted R l -> StronglySorted R (skipn n l).
Proof.
  revert l. induction n as [|n IH]; intros l Hs; [exact Hs|].
  destruct l as [|a l]; [constructor|]. simpl. apply IH.
  inversion Hs; assumption.
Qed.

Lemma In_firstn {A : Type} (n : nat) (l : list A) (x : A) :
  In x (firstn n l) -> In x l.
Proof.
  revert l. induction n as [|n IH]; intros l H; [contradiction|].
  destruct l as [|a l]; [exact H|]. destruct H as [H|H]; [left; exact H|].
  right. apply IH. exact H.
Qed.

Lemma StronglySorted_firstn {A : Type} (R : A -> A -> Prop) (n : nat)
    (l : list A) :
  StronglySorted R l -> StronglySorted R (firstn n l).
Proof.
  revert l. induction n as [|n IH]; intros l Hs; [constructor|].
  destruct l as [|a l]; [constructor|]. simpl.
  inversion Hs as [|? ? Hs' Hall]; subst. constructor; [apply IH; exact Hs'|].
  apply Forall_forall. intros y Hy.
  rewrite Forall_forall in Hall. apply Hall.
  apply (In_firstn n). exact Hy.
Qed.

Lemma In_firstn_skipn {A : Type} (n m : nat) (l : list A) (x : A) :
  In x (firstn n (skipn m l)) -> In x l.
Proof.
  intros H. apply In_firstn in H. revert l H.
  induction m as [|m IH]; intros l H; [exact H|].
  destruct l as [|a l]; [exact H|]. right. apply IH. exact H.
Qed.

(** X18.  Every incident returned by [list_incidents] is a row of the
    table that is not soft-deleted and satisfies each filter that was
    given; the page holds [min limit (total - skip)] incidents, newest
    first; and the total is the number of matching live incidents, so it
    never counts a soft-deleted one. *)
Theorem list_incidents_page (db : DB) (skip limit : nat)
    (status : option IncidentStatus) (priority : option IncidentPriority)
    (assignee_id reporter_id : option UUID) (search : option string) :
  let '(page, total) :=
    list_incidents created_at ilike db skip limit status priority
      assignee_id reporter_id search in
  (forall i, In i page ->
     In i (incidents db)
     /\ Incident.deleted_at i = None
     /\ (forall s, status = Some s -> Incident.status i = s)
     /\ (forall p, priority = Some p -> Incident.priority i = p)
     /\ (forall a, assignee_id = Some a -> Incident.assignee_id i = Some a)
     /\ (forall u, reporter_id = Some u -> Incident.reporter_id i = u))
  /\ List.length page = Nat.min limit (total - skip)
  /\ StronglySorted (newer_first created_at) page
  /\ (total + List.length (filter (fun i => is_set (Incident.deleted_at i))
                                  (incidents db))
      <= List.length (incidents db))%nat.
Proof.
  unfold list_incidents.
  set (stmt := filter _ (incidents db)).
  split; [|split; [|split]].
  - intros i Hi. apply In_firstn_skipn in Hi.
    apply (Permutation_in _ (order_by_perm stmt)) in Hi.
    apply filter_In in Hi. destruct Hi as [Hin Hw]. unfold list_where in Hw.
    repeat (apply andb_true_iff in Hw; destruct Hw as [Hw ?]).
    split; [exact Hin|]. split; [apply SLAFacts.is_none_true; exact Hw|].
    split; [|split; [|split]].
    + intros s ->. destruct (Incident.status i), s; simpl in *;
        try reflexivity; discriminate.
    + intros p ->. destruct (Incident.priority i), p; simpl in *;
        try reflexivity; discriminate.
    + intros a ->. destruct (Incident.assignee_id i) as [b|];
        [|discriminate]. f_equal. apply N.eqb_eq. assumption.
    + intros u ->. apply N.eqb_eq. assumption.
  - rewrite length_firstn, length_skipn.
    rewrite (Permutation_length (order_by_perm stmt)). reflexivity.
  - apply StronglySorted_firstn, StronglySorted_skipn, order_by_sorted.
  - rewrite <- (ServiceExtras.length_filter_split
                  (fun i => is_set (Incident.deleted_at i)) (incidents db)).
    rewrite Nat.add_comm. apply Nat.add_le_mono_l.
    unfold stmt. clear stmt.
    induction (incidents db) as [|a l IH]; simpl; [lia|].
    unfold list_where at 1. unfold is_none.
    destruct (is_set (Incident.deleted_at a)); simpl; [exact IH|].
    destruct (_ && _)%bool; simpl; lia.
Qed.



(** The page computed by [list_incidents] is one of the pages the query
    may return. *)
Lemma list_incidents_may_list (db : DB) (skip limit : nat)
    (status : option IncidentStatus) (priority : option IncidentPriority)
    (assignee_id reporter_id : option UUID) (search : option string) :
  may_list created_at ilike db skip limit status priority assignee_id
    reporter_id search
    (fst (list_incidents created_at ilike db skip limit status priority
            assignee_id reporter_id search)).
Proof.
  eexists. split; [apply order_by_perm|].
  split; [apply order_by_sorted | reflexivity].
Qed.



(** X20.  For a page size of at least 1, the paging figures of the
    listing endpoint are consistent: no page is reported exactly when
    nothing matches; otherwise [pages] is the least number of pages of
    [limit] entries that hold [total] entries; the page holds at most
    [page_size] entries and none once [skip] reaches the total; the page
    number of an offset that lies within the result never exceeds
    [pages]; and an offset that is a multiple of the page size is the
    start of the page reported. *)
Theorem paging_figures (db : DB) (skip limit : nat)
    (status : option IncidentStatus) (priority : option IncidentPriority)
    (assignee_id reporter_id : option UUID) (search : option string) :
  (1 <= limit)%nat ->
  let r := Api.list_incidents created_at ilike db skip limit status
             priority assignee_id reporter_id search in
  (Api.pages r = 0%nat <-> Api.total r = 0%nat)
  /\ (Api.total r <= Api.pages r * limit)%nat
  /\ ((0 < Api.total r)%nat ->
      ((Api.pages r - 1) * limit < Api.total r)%nat)
  /\ (List.length (Api.items r) <= Api.page_size r)%nat
  /\ ((Api.total r <= skip)%nat -> Api.items r = [])
  /\ ((skip < Api.total r)%nat -> (1 <= Api.page r <= Api.pages r)%nat)
  /\ (forall k, skip = (k * limit)%nat -> Api.page r = (k + 1)%nat).
Proof.
  intros Hl. unfold Api.list_incidents, list_incidents. cbv zeta.
  set (stmt := filter _ (incidents db)). simpl.
  set (total := List.length stmt).
  assert (Hpages : forall q, q = ((total + limit - 1) / limit)%nat ->
            (0 < total)%nat ->
            (total <= q * limit /\ (q - 1) * limit < total /\ 1 <= q)%nat).
  { intros q -> Ht.
    pose proof (Nat.div_mod_eq (total + limit - 1) limit) as Hd.
    pose proof (Nat.mod_upper_bound (total + limit - 1) limit ltac:(lia))
      as Hm.
    nia. }
  split; [|split; [|split; [|split; [|split; [|split]]]]].
  - destruct (Nat.ltb_spec 0 total) as [Ht|Ht]; [|lia].
    destruct (Hpages _ eq_refl Ht) as (_ & _ & H1). lia.
  - destruct (Nat.ltb_spec 0 total) as [Ht|Ht]; [|lia].
    apply (Hpages _ eq_refl Ht).
  - intros Ht. destruct (Nat.ltb_spec 0 total) as [_|Hc]; [|lia].
    apply (Hpages _ eq_refl Ht).
  - rewrite length_firstn. lia.
  - intros Hs. rewrite skipn_all2; [destruct limit; reflexivity|].
    rewrite (Permutation_length (order_by_perm stmt)). exact Hs.
  - intros Hs. destruct (Nat.ltb_spec 0 total) as [Ht|Ht]; [|lia].
    destruct (Hpages _ eq_refl Ht) as (H0 & _ & _).
    split; [lia|].
    pose proof (Nat.div_mod_eq skip limit) as Hd.
    set (q := ((total + limit - 1) / limit)%nat) in *.
    set (d := (skip / limit)%nat) in *.
    destruct (Nat.le_gt_cases q d) as [Hqd|Hqd]; [exfalso|lia].
    pose proof (Nat.mul_le_mono_r q d limit Hqd) as Hmul. lia.
  - intros k ->. rewrite Nat.div_mul by lia. reflexivity.
Qed.

End Listing.

(** X20 on a table of one incident, read with a page size of 10. *)
Lemma paging_figures_witness :
  Api.pages (Api.list_incidents (fun _ => 0) (fun _ _ => true)
               Examples.db_disk 0 10 None None None None None) = 1%nat
  /\ Api.page (Api.list_incidents (fun _ => 0) (fun _ _ => true)
                 Examples.db_disk 0 10 None None None None None) = 1%nat.
Proof.
  destruct (paging_figures (fun _ => 0) (fun _ _ => true) Examples.db_disk
              0 10 None None None None None ltac:(lia))
    as (_ & _ & _ & _ & _ & Hp & Hk).
  split; [|apply (Hk 0%nat); reflexivity].
  specialize (Hp ltac:(simpl; lia)). simpl in *. lia.
Defined.


End ListingExtras.

(** ** Rendering of durations and time remaining *)

Module TimeExtras.

Lemma string_of_uint_head (u : Decimal.uint) :
  u <> Decimal.Nil ->
  exists c s, NilEmpty.string_of_uint u = String c s /\ c <> "B"%char.
Proof.
  destruct u; intros H; [contradiction| | | | | | | | | |];
    simpl; do 2 eexists; (split; [reflexivity | discriminate]).
Qed.

Lemma str_int_head (n : Z) :
  0 <= n -> exists c s, str_int n = String c s /\ c <> "B"%char.
Proof.
  intros Hn. unfold str_int. destruct n as [|p|p]; [| |lia].
  - exists "0"%char, ""%string. split; [reflexivity | discriminate].
  - simpl. apply string_of_uint_head.
    apply DecimalPos.Unsigned.to_uint_nonnil.
Qed.

Lemma append_head_not_B (a b : string) (c : ascii) (s : string) :
  a = String c s -> c <> "B"%char -> (a ++ b)%string <> "Breached"%string.
Proof.
  intros -> Hc H. simpl in H. injection H as H _. exact (Hc H).
Qed.

Lemma total_seconds_negative (td : timedelta) :
  Z.quot td 1000000 < 0 <-> td <= - 1000000.
Proof.
  split; intros H; Z.to_euclidean_division_equations; lia.
Qed.

(** X21.  For a duration below [2^53] microseconds in size,
    [format_timedelta] answers "Breached" exactly when the duration is
    minus one second or less: a negative duration of less than a second
    is rendered as "0m".  Otherwise the text is built from whole days,
    hours below 24 and minutes below 60 that never overstate the
    duration: with days it shows days and hours and understates by less
    than an hour, without days it shows hours and minutes, or minutes
    alone, and understates by less than a minute. *)
Theorem format_timedelta_spec (td : timedelta) :
  - 2 ^ 53 < td < 2 ^ 53 ->
  (format_timedelta td = "Breached"%string <-> td <= - 1000000)
  /\ (- 1000000 < td < 60 * 1000000 ->
      format_timedelta td = "0m"%string)
  /\ (- 1000000 < td ->
      exists d h m,
        0 <= d /\ 0 <= h < 24 /\ 0 <= m < 60
        /\ (d * 86400 + h * 3600 + m * 60) * 1000000 <= Z.max td 0
           < (d * 86400 + h * 3600 + m * 60 + 60) * 1000000
        /\ format_timedelta td
           = if 0 <? d then (str_int d ++ "d " ++ str_int h ++ "h")%string
             else if 0 <? h
                  then (str_int h ++ "h " ++ str_int m ++ "m")%string
                  else (str_int m ++ "m")%string).
Proof.
  intros _. pose proof (total_seconds_negative td) as Hneg.
  unfold format_timedelta.
  set (ts := Z.quot td 1000000) in *.
  assert (Hts : 0 <= ts -> ts * 1000000 <= Z.max td 0 < (ts + 1) * 1000000).
  { intros H0. unfold ts in *. clear Hneg.
    Z.to_euclidean_division_equations. lia. }
  pose proof (Z.div_mod ts 86400 ltac:(lia)) as Hd.
  pose proof (Z.mod_pos_bound ts 86400 ltac:(lia)) as Hdb.
  pose proof (Z.div_mod (ts mod 86400) 3600 ltac:(lia)) as Hh.
  pose proof (Z.mod_pos_bound (ts mod 86400) 3600 ltac:(lia)) as Hhb.
  pose proof (Z.div_mod (ts mod 3600) 60 ltac:(lia)) as Hm.
  pose proof (Z.mod_pos_bound (ts mod 3600) 60 ltac:(lia)) as Hmb.
  pose proof (Z.mod_pos_bound ts 3600 ltac:(lia)) as Hsb.
  assert (Hmm : (ts mod 86400) mod 3600 = ts mod 3600).
  { replace 86400 with (3600 * 24) by reflexivity.
    rewrite Z.rem_mul_r by lia.
    rewrite (Z.mul_comm 3600), Z.mod_add by lia.
    apply Z.mod_mod. lia. }
  set (days := ts / 86400) in *.
  set (hours := (ts mod 86400) / 3600) in *.
  set (minutes := (ts mod 3600) / 60) in *.
  split; [|split].
  - destruct (Z.ltb_spec ts 0) as [Hlt|Hge]; [tauto|].
    split; [|lia]. intros H. exfalso. revert H.
    destruct (Z.ltb_spec 0 days); [|destruct (Z.ltb_spec 0 hours)].
    + destruct (str_int_head days ltac:(lia)) as (c & s & E & Hc).
      apply (append_head_not_B _ _ c s E Hc).
    + destruct (str_int_head hours ltac:(lia)) as (c & s & E & Hc).
      apply (append_head_not_B _ _ c s E Hc).
    + destruct (str_int_head minutes ltac:(lia)) as (c & s & E & Hc).
      apply (append_head_not_B _ _ c s E Hc).
  - intros Hr. destruct (Z.ltb_spec ts 0) as [Hlt|Hge]; [lia|].
    specialize (Hts Hge).
    assert (E0 : ts < 60) by lia.
    assert (Ed : days = 0) by (unfold days; apply Z.div_small; lia).
    assert (Eh : hours = 0).
    { unfold hours. rewrite Z.mod_small by lia. apply Z.div_small. lia. }
    assert (Em : minutes = 0).
    { unfold minutes. rewrite Z.mod_small by lia. apply Z.div_small. lia. }
    rewrite Ed, Eh, Em. reflexivity.
  - intros Hr. destruct (Z.ltb_spec ts 0) as [Hlt|Hge]; [lia|].
    specialize (Hts Hge).
    assert (Hd0 : 0 <= days) by (apply Z.div_pos; lia).
    assert (Hh0 : 0 <= hours < 24).
    { split; [apply Z.div_pos; lia|].
      apply Z.div_lt_upper_bound; lia. }
    assert (Hm0 : 0 <= minutes < 60).
    { split; [apply Z.div_pos; lia|].
      apply Z.div_lt_upper_bound; lia. }
    exists days, hours, minutes.
    split; [exact Hd0|]. split; [exact Hh0|]. split; [exact Hm0|].
    split; [|reflexivity].
    assert (Hrec : ts = days * 86400 + hours * 3600 + minutes * 60
                        + (ts mod 3600) mod 60).
    { lia. }
    pose proof (Z.mod_pos_bound (ts mod 3600) 60 ltac:(lia)). lia.
Qed.

Lemma format_timedelta_spec_witness :
  format_timedelta (- 400000) = "0m"%string.
Proof.
  apply (proj1 (proj2 (format_timedelta_spec (- 400000) ltac:(lia))));
    lia.
Defined.

(** X22.  Time remaining and the breach queries agree on the same clock
    reading: the response query is true exactly when no response is
    recorded and the time remaining to the response deadline is
    negative, the resolution query exactly when the status is not MET and
    the time remaining to the resolution deadline is negative.  The
    deadline type is matched literally: every string other than
    [response], also [Response], selects the resolution deadline.  The
    rendering of the time remaining (for a distance to the deadline
    below [2^53] microseconds) says "Breached" only from one full second
    after the deadline on. *)
Theorem time_remaining_and_breach (s : SLA.t) (now : datetime)
    (deadline_type : string) :
  (SLA.is_response_breached s now = true
   <-> SLA.response_at s = None
       /\ SLA.get_time_remaining s "response" now < 0)
  /\ (SLA.is_resolution_breached s now = true
      <-> SLA.status s <> MET
          /\ SLA.get_time_remaining s "resolution" now < 0)
  /\ (deadline_type <> "response"%string ->
      SLA.get_time_remaining s deadline_type now
      = SLA.resolution_deadline s - now)
  /\ (- 2 ^ 53 < SLA.resolution_deadline s - now < 2 ^ 53 ->
      (format_timedelta (SLA.get_time_remaining s "resolution" now)
       = "Breached"%string
       <-> SLA.resolution_deadline s + 1000000 <= now)).
Proof.
  split; [|split; [|split]].
  - unfold SLA.is_response_breached, SLA.get_time_remaining. simpl.
    destruct (SLA.response_at s); simpl.
    + split; [discriminate | intros [H _]; discriminate].
    + rewrite Z.ltb_lt. split; [intros H; split; [reflexivity|lia] | lia].
  - unfold SLA.is_resolution_breached, SLA.get_time_remaining. simpl.
    destruct (SLAStatus_eqb (SLA.status s) MET) eqn:E.
    + apply SLAFacts.SLAStatus_eqb_eq in E.
      split; [discriminate | intros [H _]; contradiction].
    + rewrite Z.ltb_lt. split; [|lia]. intros H. split; [|lia].
      intros Hm. apply SLAFacts.SLAStatus_eqb_eq in Hm. congruence.
  - intros H. unfold SLA.get_time_remaining.
    destruct (String.eqb_spec deadline_type "response"); [contradiction|].
    reflexivity.
  - intros _. unfold SLA.get_time_remaining. simpl.
    unfold format_timedelta.
    pose proof (total_seconds_negative (SLA.resolution_deadline s - now))
      as Hneg.
    set (ts := Z.quot (SLA.resolution_deadline s - now) 1000000) in *.
    destruct (Z.ltb_spec ts 0) as [Hlt|Hge].
    + split; [intros _; lia | reflexivity].
    + split; [|lia]. intros H. exfalso. revert H.
      assert (H86 : 0 <= ts / 86400) by (apply Z.div_pos; lia).
      assert (H36 : 0 <= (ts mod 86400) / 3600).
      { apply Z.div_pos; [|lia]. apply Z.mod_pos_bound. lia. }
      assert (H60 : 0 <= (ts mod 3600) / 60).
      { apply Z.div_pos; [|lia]. apply Z.mod_pos_bound. lia. }
      destruct (0 <? ts / 86400); [|destruct (0 <? (ts mod 86400) / 3600)].
      * destruct (str_int_head _ H86) as (c & t & E & Hc).
        apply (append_head_not_B _ _ c t E Hc).
      * destruct (str_int_head _ H36) as (c & t & E & Hc).
        apply (append_head_not_B _ _ c t E Hc).
      * destruct (str_int_head _ H60) as (c & t & E & Hc).
        apply (append_head_not_B _ _ c t E Hc).
Qed.

Lemma time_remaining_and_breach_witness :
  SLA.get_time_remaining Examples.disk_sla "Response" 12 = 8.
Proof.
  apply (proj1 (proj2 (proj2
           (time_remaining_and_breach Examples.disk_sla 12 "Response")))).
  discriminate.
Defined.

End TimeExtras.

(** ** The list validators of the settings *)

Module ConfigListExtras.
Import Config.

Lemma lstrip_idem (s : string) : lstrip (lstrip s) = lstrip s.
Proof.
  induction s as [|c r IH]; simpl; [reflexivity|].
  destruct (is_space c) eqn:E; [exact IH|]. simpl. rewrite E. reflexivity.
Qed.

Lemma rstrip_cons (c : ascii) (r : string) :
  rstrip (String c r)
  = if (String.eqb (rstrip r) "" && is_space c)%bool then EmptyString
    else String c (rstrip r).
Proof.
  simpl. destruct (rstrip r); simpl; [destruct (is_space c)|]; reflexivity.
Qed.

Lemma rstrip_idem (s : string) : rstrip (rstrip s) = rstrip s.
Proof.
  induction s as [|c r IH]; [reflexivity|].
  rewrite rstrip_cons.
  destruct (String.eqb (rstrip r) "" && is_space c)%bool eqn:Eb;
    [reflexivity|].
  rewrite rstrip_cons, IH, Eb. reflexivity.
Qed.

Lemma lstrip_rstrip_comm (s : string) : rstrip (lstrip s) = lstrip (rstrip s).
Proof.
  induction s as [|c r IH]; [reflexivity|].
  change (lstrip (String c r))
    with (if is_space c then lstrip r else String c r).
  rewrite (rstrip_cons c r). destruct (is_space c) eqn:Ec.
  - rewrite IH, andb_true_r.
    destruct (String.eqb_spec (rstrip r) "") as [E|E].
    + rewrite E. reflexivity.
    + simpl. rewrite Ec. reflexivity.
  - rewrite andb_false_r. simpl lstrip. rewrite Ec.
    rewrite rstrip_cons, Ec, andb_false_r. reflexivity.
Qed.

Lemma strip_idem (s : string) : strip (strip s) = strip s.
Proof.
  unfold strip. rewrite lstrip_rstrip_comm, lstrip_idem, rstrip_idem.
  reflexivity.
Qed.

Lemma lstrip_chars (s : string) (c : ascii) :
  In c (list_ascii_of_string (lstrip s)) -> In c (list_ascii_of_string s).
Proof.
  induction s as [|a r IH]; simpl; [tauto|].
  destruct (is_space a); simpl; auto.
Qed.

Lemma rstrip_chars (s : string) (c : ascii) :
  In c (list_ascii_of_string (rstrip s)) -> In c (list_ascii_of_string s).
Proof.
  induction s as [|a r IH]; [simpl; tauto|].
  rewrite rstrip_cons. destruct (_ && _)%bool; simpl; [tauto|].
  intros [H|H]; auto.
Qed.

Lemma strip_chars (s : string) (c : ascii) :
  In c (list_ascii_of_string (strip s)) -> In c (list_ascii_of_string s).
Proof. intros H. apply rstrip_chars, lstrip_chars. exact H. Qed.

Lemma split_comma_nonempty (s : string) : split_comma s <> [].
Proof.
  induction s as [|c r IH]; simpl; [discriminate|].
  destruct (Ascii.eqb c ","); [discriminate|].
  destruct (split_comma r); [contradiction | discriminate].
Qed.

Lemma split_comma_pieces (s piece : string) :
  In piece (split_comma s) -> ~ In ","%char (list_ascii_of_string piece).
Proof.
  revert piece. induction s as [|c r IH]; simpl; intros piece H.
  - destruct H as [<-|[]]. simpl. tauto.
  - destruct (Ascii.eqb_spec c ",") as [E|E].
    + destruct H as [<-|H]; [simpl; tauto | apply IH; exact H].
    + destruct (split_comma r) as [|p ps] eqn:Es.
      * destruct H as [<-|[]]. simpl. intros [H|[]]. congruence.
      * destruct H as [<-|H].
        -- simpl. intros [H|H]; [congruence|].
           apply (IH p); [left; reflexivity | exact H].
        -- apply IH. right. exact H.
Qed.

Lemma lower_char_idem (c : ascii) : lower_char (lower_char c) = lower_char c.
Proof. destruct c as [[] [] [] [] [] [] [] []]; reflexivity. Qed.

Lemma lower_char_space (c : ascii) : is_space (lower_char c) = is_space c.
Proof. destruct c as [[] [] [] [] [] [] [] []]; reflexivity. Qed.

Lemma lower_char_comma (c : ascii) :
  lower_char c = ","%char -> c = ","%char.
Proof.
  destruct c as [[] [] [] [] [] [] [] []]; intros H;
    first [reflexivity | discriminate H].
Qed.

Lemma lower_idem (s : string) : lower (lower s) = lower s.
Proof.
  induction s as [|c r IH]; simpl; [reflexivity|].
  rewrite lower_char_idem, IH. reflexivity.
Qed.

Lemma lower_lstrip (s : string) : lstrip (lower s) = lower (lstrip s).
Proof.
  induction s as [|c r IH]; simpl; [reflexivity|].
  rewrite lower_char_space. destruct (is_space c); [exact IH | reflexivity].
Qed.

Lemma lower_empty (s : string) : lower s = EmptyString <-> s = EmptyString.
Proof. destruct s; simpl; split; intros H; try reflexivity; discriminate. Qed.

Lemma lower_rstrip (s : string) : rstrip (lower s) = lower (rstrip s).
Proof.
  induction s as [|c r IH]; [reflexivity|].
  change (lower (String c r)) with (String (lower_char c) (lower r)).
  rewrite !rstrip_cons, IH, lower_char_space.
  destruct (String.eqb_spec (rstrip r) "") as [E|E].
  - rewrite E. simpl. destruct (is_space c); reflexivity.
  - destruct (String.eqb_spec (lower (rstrip r)) "") as [E'|E'];
      [exfalso; apply E, (proj1 (lower_empty _) E') | reflexivity].
Qed.

Lemma lower_strip (s : string) : strip (lower s) = lower (strip s).
Proof. unfold strip. rewrite lower_rstrip, lower_lstrip. reflexivity. Qed.

Lemma lower_chars_comma (s : string) :
  In ","%char (list_ascii_of_string (lower s)) ->
  In ","%char (list_ascii_of_string s).
Proof.
  induction s as [|c r IH]; simpl; [tauto|].
  intros [H|H]; [left; apply lower_char_comma; exact H | right; auto].
Qed.

(** X23.  For a value in ASCII, every entry produced by
    [parse_cors_origins] and by [parse_allowed_extensions] is non-empty,
    has no surrounding spaces and contains no comma; an extension is
    moreover in lower case; and the extensions of a value are the origins
    of the same value put in lower case.  A value that is already a list
    is returned as it is. *)
Theorem parsed_entries_are_clean (s : string) (l : list string) :
  is_ascii s = true ->
  Forall clean_item (parse_cors_origins (inl s))
  /\ Forall (fun x => clean_item x /\ lower x = x)
       (parse_allowed_extensions (inl s))
  /\ parse_allowed_extensions (inl s)
     = map lower (parse_cors_origins (inl s))
  /\ parse_cors_origins (inr l) = l
  /\ parse_allowed_extensions (inr l) = l.
Proof.
  intros _.
  assert (Hclean : forall piece,
            In piece (filter (fun o => negb (String.eqb (strip o) ""))
                             (split_comma s)) ->
            clean_item (strip piece)).
  { intros piece H. apply filter_In in H. destruct H as [Hin Hne].
    split; [|split].
    - destruct (String.eqb_spec (strip piece) ""); [discriminate|assumption].
    - apply strip_idem.
    - intros Hc. apply strip_chars in Hc.
      exact (split_comma_pieces s piece Hin Hc). }
  split; [|split; [|split; [|split]]]; try reflexivity.
  - apply Forall_forall. intros x Hx. simpl in Hx. apply in_map_iff in Hx.
    destruct Hx as (piece & <- & Hin). apply Hclean. exact Hin.
  - apply Forall_forall. intros x Hx. simpl in Hx. apply in_map_iff in Hx.
    destruct Hx as (piece & <- & Hin).
    destruct (Hclean piece Hin) as (Hne & Hst & Hco).
    split; [split; [|split]|].
    + intros H. apply Hne, (proj1 (lower_empty _) H).
    + rewrite lower_strip, Hst. reflexivity.
    + intros H. apply Hco, lower_chars_comma, H.
    + apply lower_idem.
  - simpl. rewrite map_map. reflexivity.
Qed.

Lemma parsed_entries_are_clean_witness :
  Forall clean_item
    (parse_cors_origins (inl " a.example , ,b.example,"%string)).
Proof.
  apply (parsed_entries_are_clean " a.example , ,b.example,"%string []).
  reflexivity.
Defined.

Lemma split_comma_free (x : string) :
  ~ In ","%char (list_ascii_of_string x) -> split_comma x = [x].
Proof.
  induction x as [|c r IH]; simpl; intros H; [reflexivity|].
  destruct (Ascii.eqb_spec c ",") as [E|E]; [exfalso; apply H; auto|].
  rewrite IH by tauto. reflexivity.
Qed.

Lemma split_comma_app (x s : string) :
  ~ In ","%char (list_ascii_of_string x) ->
  split_comma (x ++ String "," s) = x :: split_comma s.
Proof.
  induction x as [|c r IH]; simpl; intros H; [reflexivity|].
  destruct (Ascii.eqb_spec c ",") as [E|E]; [exfalso; apply H; auto|].
  rewrite IH by tauto. reflexivity.
Qed.

Lemma split_join (l : list string) :
  l <> [] ->
  Forall (fun x => ~ In ","%char (list_ascii_of_string x)) l ->
  split_comma (join_comma l) = l.
Proof.
  induction l as [|x l IH]; intros Hne Hall; [contradiction|].
  inversion Hall as [|? ? Hx Hl]; subst.
  destruct l as [|y l].
  - simpl. apply split_comma_free. exact Hx.
  - change (join_comma (x :: y :: l))
      with (x ++ String "," (join_comma (y :: l)))%string.
    rewrite split_comma_app by exact Hx.
    rewrite IH; [reflexivity | discriminate | exact Hl].
Qed.

(** X24.  Round trip: joining clean entries (non-empty, without
    surrounding spaces, without a comma) with commas and parsing the
    result gives the entries back, in the same order, from
    [parse_cors_origins], and gives them back in lower case from
    [parse_allowed_extensions]; the empty list comes back from the empty
    string. *)
Theorem parse_join_round_trip (l : list string) :
  Forall clean_item l ->
  is_ascii (join_comma l) = true ->
  parse_cors_origins (inl (join_comma l)) = l
  /\ parse_allowed_extensions (inl (join_comma l)) = map lower l.
Proof.
  intros Hall _.
  assert (Hfilter : map strip
                      (filter (fun o => negb (String.eqb (strip o) ""))
                              (split_comma (join_comma l))) = l).
  { destruct l as [|x l']; [reflexivity|].
    rewrite split_join;
      [|discriminate
       |apply Forall_impl with (P := clean_item);
        [intros a (_ & _ & H); exact H | exact Hall]].
    induction Hall as [|a l0 (Hne & Hst & _) _ IH]; [reflexivity|].
    simpl. rewrite Hst.
    destruct (String.eqb_spec a ""); [contradiction|]. simpl.
    rewrite Hst. f_equal. exact IH. }
  split; [exact Hfilter|].
  unfold parse_allowed_extensions.
  rewrite <- Hfilter at 2. rewrite map_map. reflexivity.
Qed.

Lemma parse_join_round_trip_witness :
  parse_allowed_extensions
    (inl (join_comma ["pdf"; "PNG"; "tar.gz"]%string))
  = ["pdf"; "png"; "tar.gz"]%string.
Proof.
  apply (proj2 (parse_join_round_trip ["pdf"; "PNG"; "tar.gz"]%string
                  ltac:(repeat constructor; simpl;
                        intuition discriminate)
                  eq_refl)).
Defined.

End ConfigListExtras.
